(** * Cross-chain bridge event listener: decoder, queue and poll loop

    A shallow embedding of [script.py]: the fixed-layout log decoder
    ([BridgeContractHandler.parse_lock_event_from_log]), the mock log
    generator it is tested against, the nonce-deduplicating queue
    ([DestinationTransactionProcessor]) and the poll loop of
    [EventListener.run] with its state file.

    Python values are rendered as follows.
    - [str] is a list of 8-bit characters ([list ascii], code points 0-255).
    - [int] is [Z] (unbounded, as in Python).
    - a [set] of ints is a [gset Z]; the [asyncio.Queue] is a list whose head
      is the next item handed out by [get].
    - a call that may raise returns [exc A]; [int(s, 16)] returns [option Z],
      [None] standing for the [ValueError] the decoder catches. *)

From Stdlib Require Import ZArith NArith Ascii String HexString.
From stdpp Require Import base tactics option list gmap.

#[local] Open Scope Z_scope.

(** ** Python strings *)

Module Py.

Abbreviation str := (list ascii).

(** A string literal. *)
Definition lit (s : string) : str := list_ascii_of_string s.

Definition ch (n : N) : ascii := ascii_of_N n.
Definition code (c : ascii) : N := N_of_ascii c.

Definition is_char (c d : ascii) : bool := bool_decide (c = d).

(** [s[a:b]] for literal bounds [0 <= a <= b]; both ends clip at [len(s)]. *)
Definition slice (a b : nat) (s : str) : str := take (b - a) (drop a s).

(** [s[-k:]]: the last [k] characters, the whole string when it is shorter. *)
Definition last_chars (k : nat) (s : str) : str := drop (length s - k) s.

(** [s.replace('0x', '')]: every occurrence of the two characters, scanning
    from the left without overlap, is dropped. *)
Fixpoint replace_0x (s : str) : str :=
  match s with
  | [] => []
  | c :: r =>
      match r with
      | d :: r' =>
          if is_char c "0" && is_char d "x" then replace_0x r'
          else c :: replace_0x r
      | [] => [c]
      end
  end.

(** [s.zfill(width)]: zeros are added on the left, after a leading sign. *)
Definition zfill (width : nat) (s : str) : str :=
  let pad := replicate (width - length s) "0"%char in
  match s with
  | c :: r => if is_char c "+" || is_char c "-" then c :: pad ++ r else pad ++ s
  | [] => pad
  end.

(** [hex(n)]: ["0x"] and the lower-case digits, ["-0x..."] below zero. *)
Definition hex (n : Z) : str := lit (HexString.of_Z n).

(** [s.lower()] on 8-bit characters: [A-Z] and the Latin-1 capitals
    (0xC0-0xDE, the multiplication sign 0xD7 apart) move up by 32. *)
Definition lower_char (c : ascii) : ascii :=
  let n := code c in
  if ((65 <=? n) && (n <=? 90) ||
      (192 <=? n) && (n <=? 222) && negb (n =? 215))%N
  then ch (n + 32) else c.
Definition lower (s : str) : str := map lower_char s.

(** *** [int(s, 16)] *)

(** The value of a base-16 digit ([_PyLong_DigitValue[c] < 16]). *)
Definition digit_value (c : ascii) : option N := HexString.ascii_to_digit c.

(** [Py_ISSPACE]: tab, line feed, vertical tab, form feed, carriage return
    and the blank. *)
Definition is_space (c : ascii) : bool :=
  let n := code c in ((9 <=? n) && (n <=? 13) || (n =? 32))%N.

(** Before parsing, a character above 126 that Unicode counts as white space
    becomes a blank; among the 8-bit characters these are NEL (0x85) and the
    no-break space (0xA0).  No 8-bit character above 126 is a decimal digit:
    the others stay and stop the parse, as the ['?'] CPython writes does. *)
Definition to_ascii_space (c : ascii) : ascii :=
  let n := code c in
  if ((n =? 133) || (n =? 160))%N then " "%char else c.

Fixpoint skip_spaces (s : str) : str :=
  match s with
  | c :: r => if is_space c then skip_spaces r else s
  | [] => []
  end.

(** The digit loop of [long_from_binary_base]: digits and single underscores
    between them; [prev_us] tells that the previous character was an
    underscore.  Returns the value, the number of digits and the rest, or
    [None] on a doubled or trailing underscore. *)
Fixpoint scan_digits (s : str) (prev_us : bool) (acc : N) (digits : nat)
  : option (N * nat * str) :=
  match s with
  | c :: r =>
      if is_char c "_" then
        if prev_us then None else scan_digits r true acc digits
      else
        match digit_value c with
        | Some v => scan_digits r false (16 * acc + v)%N (S digits)
        | None => if prev_us then None else Some (acc, digits, s)
        end
  | [] => if prev_us then None else Some (acc, digits, [])
  end.

(** After the sign: an optional [0x] or [0X], then at most one underscore. *)
Definition skip_base_prefix (s : str) : str :=
  match s with
  | c :: d :: r =>
      if is_char c "0" && (is_char d "x" || is_char d "X") then
        match r with
        | u :: r' => if is_char u "_" then r' else r
        | [] => r
        end
      else s
  | _ => s
  end.

Definition int16 (s : str) : option Z :=
  let s := skip_spaces (map to_ascii_space s) in
  let '(negative, s) :=
    match s with
    | c :: r => if is_char c "+" then (false, r)
                else if is_char c "-" then (true, r) else (false, s)
    | [] => (false, s)
    end in
  let s := skip_base_prefix s in
  match s with
  | c :: _ => if is_char c "_" then None else
      match scan_digits s false 0 0 with
      | Some (v, digits, rest) =>
          if bool_decide (digits = 0%nat) then None
          else match skip_spaces rest with
               | [] => Some (if negative then - Z.of_N v else Z.of_N v)
               | _ :: _ => None
               end
      | None => None
      end
  | [] => None
  end.

End Py.

Import Py.

(** ** Data model *)

(** [CONFIG]: the values the listener reads. *)
Record Config := {
  bridge_contract_address : str;
  start_block : Z;
  confirmation_blocks : Z
}.

Definition CONFIG : Config := {|
  bridge_contract_address := lit "0xAb5801a7D398351b8bE11C439e05C5B3259aeC9B";
  start_block := 1000;
  confirmation_blocks := 6
|}.

Record LogEntry := {
  address : str;
  topics : list str;
  data : str;
  blockNumber : Z
}.

Record ParsedLockEvent := {
  source_token : str;
  destination_chain_id : Z;
  recipient_address : str;
  amount : Z;
  nonce : Z;
  block_number : Z
}.

(** ** The decoder *)

(** [BridgeContractHandler.parse_lock_event_from_log].  The three [int]
    calls are the only operations of the body that can raise; their
    [ValueError] is caught and turned into [None]. *)
Definition parse_lock_event_from_log (log : LogEntry) : option ParsedLockEvent :=
  let data := replace_0x (data log) in
  if negb (length data =? 64 * 5)%nat then None
  else
    let source_token := lit "0x" ++ last_chars 40 (slice 0 64 data) in
    destination_chain_id ← int16 (slice 64 128 data);
    let recipient_address := lit "0x" ++ last_chars 40 (slice 128 192 data) in
    amount ← int16 (slice 192 256 data);
    nonce ← int16 (slice 256 320 data);
    Some {| source_token := source_token;
            destination_chain_id := destination_chain_id;
            recipient_address := recipient_address;
            amount := amount;
            nonce := nonce;
            block_number := blockNumber log |}.

(** ** The mock log generator *)

(** The [data_payload] expression of [_generate_mock_lock_event_log], as a
    function of the five local variables it is built from. *)
Definition data_payload (source_token : str) (destination_chain_id : Z)
    (recipient_address : str) (amount nonce : Z) : str :=
  zfill 64 (replace_0x source_token) ++
  zfill 64 (drop 2 (hex destination_chain_id)) ++
  zfill 64 (replace_0x recipient_address) ++
  zfill 64 (drop 2 (hex amount)) ++
  zfill 64 (drop 2 (hex nonce)).

Definition lock_event_signature_hash : str :=
  lit "0x1234567890abcdef1234567890abcdef1234567890abcdef1234567890abcdef".

(** The dictionary [_generate_mock_lock_event_log] returns, for the values
    of an arbitrary event in place of its five local variables. *)
Definition lock_event_log (event : ParsedLockEvent) : LogEntry :=
  {| address := bridge_contract_address CONFIG;
     topics := [lock_event_signature_hash];
     data := lit "0x" ++ data_payload (source_token event)
               (destination_chain_id event) (recipient_address event)
               (amount event) (nonce event);
     blockNumber := block_number event |}.

(** [_generate_mock_lock_event_log]; [amount_units] is the draw of
    [random.randint(100, 5000)], [now_ms] is [int(time.time() * 1000)] and
    [jitter] the draw of [random.randint(0, 1000)]. *)
Definition _generate_mock_lock_event_log (amount_units now_ms jitter : Z)
    (block_number : Z) : LogEntry :=
  let source_token := lit "0xC02aaA39b223FE8D0A0e5C4F27eAD9083C756Cc2" in
  let destination_chain_id := 80001 in
  let recipient_address := lit "0x70997970C51812dc3A010C7d01b50e0d17dc79C8" in
  let amount := amount_units * 10 ^ 18 in
  let nonce := now_ms + jitter in
  {| address := bridge_contract_address CONFIG;
     topics := [lock_event_signature_hash];
     data := lit "0x" ++ data_payload source_token destination_chain_id
                                      recipient_address amount nonce;
     blockNumber := block_number |}.

(** ** Exceptions *)

Inductive exn := ValueError | TypeError | KeyError | OSError.

Inductive exc (A : Type) := Ret (a : A) | Raise (e : exn).
Arguments Ret {A} a.
Arguments Raise {A} e.

#[global] Instance exc_ret : MRet exc := @Ret.
#[global] Instance exc_bind : MBind exc := fun A B k m =>
  match m with Ret a => k a | Raise e => Raise e end.

(** ** The transaction processor *)

(** [DestinationTransactionProcessor]: the queue, the nonce registry, and,
    as a record of what the worker did, the events [process_queue] has taken
    out of the queue so far, oldest first. *)
Record Processor := {
  _pending_transactions : list ParsedLockEvent;
  _processed_nonces : gset Z;
  taken : list ParsedLockEvent
}.

(** [DestinationTransactionProcessor.__init__]. *)
Definition new_processor : Processor :=
  {| _pending_transactions := []; _processed_nonces := ∅; taken := [] |}.

(** [submit_mint_transaction]: returns normally on both paths. *)
Definition submit_mint_transaction (event : ParsedLockEvent) (p : Processor)
  : Processor :=
  if decide (nonce event ∈ _processed_nonces p) then p
  else {| _pending_transactions := _pending_transactions p ++ [event];
          _processed_nonces := _processed_nonces p ∪ {[nonce event]};
          taken := taken p |}.

(** One turn of the [while True] of [process_queue]: [get] hands out the head
    of the queue; on an empty queue the worker stays suspended. *)
Definition process_queue_turn (p : Processor) : Processor :=
  match _pending_transactions p with
  | event_to_process :: rest =>
      {| _pending_transactions := rest;
         _processed_nonces := _processed_nonces p;
         taken := taken p ++ [event_to_process] |}
  | [] => p
  end.

(** What the two tasks do to the processor, in the order they do it. *)
Inductive queue_op := Submit (event : ParsedLockEvent) | Take.

(** The processor after one operation, and after a list of them. *)
Definition queue_step (p : Processor) (o : queue_op) : Processor :=
  match o with
  | Submit event => submit_mint_transaction event p
  | Take => process_queue_turn p
  end.

Definition queue_run (p : Processor) (ops : list queue_op) : Processor :=
  foldl queue_step p ops.

(** The events the worker has received or will receive, in order. *)
Definition delivery (p : Processor) : list ParsedLockEvent :=
  taken p ++ _pending_transactions p.

(** The events handed to [submit_mint_transaction], in order. *)
Definition submitted (ops : list queue_op) : list ParsedLockEvent :=
  omap (fun o => match o with Submit e => Some e | Take => None end) ops.

(** ** The state file *)

#[local] Set Warnings "-register-all".

(** A value [json.load] returns. A float keeps its source text. *)
Inductive json :=
  | JNull
  | JBool (b : bool)
  | JInt (n : Z)
  | JFloat (text : str)
  | JString (s : str)
  | JArray (items : list json)
  | JObject (members : list (str * json)).

(** The state file as [open] and [json.load] see it: no such file, a text
    that is not JSON, or a JSON document. *)
Inductive stored := Missing | NotJson | Json (v : json).

(** [d[key]] on a [dict] whose items are [members]. *)
Fixpoint dict_get (key : str) (members : list (str * json)) : exc json :=
  match members with
  | (k, v) :: rest => if decide (k = key) then Ret v else dict_get key rest
  | [] => Raise KeyError
  end.

(** [v[key]] for a string key: a lookup on a [dict], [TypeError] on any other
    value. *)
Definition subscript (v : json) (key : str) : exc json :=
  match v with
  | JObject members => dict_get key members
  | _ => Raise TypeError
  end.

Definition scan_state (cursor : Z) : json :=
  JObject [(lit "last_processed_block", JInt cursor)].

(** [EventListener._load_state]: only [FileNotFoundError] and
    [json.JSONDecodeError] are caught; the log line that reads
    [state['last_processed_block']] runs before the [return]. *)
Definition _load_state (cfg : Config) (file : stored) : exc json :=
  match file with
  | Missing | NotJson => Ret (scan_state (start_block cfg))
  | Json state =>
      _ ← subscript state (lit "last_processed_block");
      Ret state
  end.

(** What the write in [_save_state] meets: success, [open] raising, or a
    write raising after [open(..., 'w')] has emptied the file. *)
Inductive save_outcome := SaveOk | OpenFails | WriteFails.

(** ** The listener *)

(** What the listener does that can be seen from outside, in order. *)
Inductive action :=
  | Fetched (from_block to_block : Z) (address : str)
  | Submitted (event : ParsedLockEvent)
  | CursorSet (to_block : Z)
  | Saved (cursor : Z)
  | SaveFailed.

(** [EventListener] with a state dict whose [last_processed_block] is an
    [int]: what [_load_state] builds when the file is missing and what every
    file written by [_save_state] gives back. *)
Record Listener := {
  last_processed_block : Z;
  tx_processor : Processor;
  state_file : stored;
  journal : list action
}.

(** Field updates; the first two also write the journal. *)
Definition note (a : action) (l : Listener) : Listener :=
  {| last_processed_block := last_processed_block l;
     tx_processor := tx_processor l;
     state_file := state_file l;
     journal := journal l ++ [a] |}.

Definition set_cursor (to_block : Z) (l : Listener) : Listener :=
  {| last_processed_block := to_block;
     tx_processor := tx_processor l;
     state_file := state_file l;
     journal := journal l ++ [CursorSet to_block] |}.

Definition with_processor (f : Processor -> Processor) (l : Listener) : Listener :=
  {| last_processed_block := last_processed_block l;
     tx_processor := f (tx_processor l);
     state_file := state_file l;
     journal := journal l |}.

Definition with_file (file : stored) (l : Listener) : Listener :=
  {| last_processed_block := last_processed_block l;
     tx_processor := tx_processor l;
     state_file := file;
     journal := journal l |}.

(** The integer cursor of a loaded state, when it has one. *)
Definition cursor_of (state : json) : option Z :=
  match subscript state (lit "last_processed_block") with
  | Ret (JInt n) => Some n
  | _ => None
  end.

(** [EventListener.__init__]: the state is loaded, then the collaborators
    are built.  [None] inside [Ret] marks a loaded state whose cursor is not
    an [int], on which the loop below is not modelled. *)
Definition new_listener (cfg : Config) (file : stored) : exc (option Listener) :=
  state ← _load_state cfg file;
  Ret (cursor ← cursor_of state;
       Some {| last_processed_block := cursor;
               tx_processor := new_processor;
               state_file := file;
               journal := [] |}).

(** [EventListener._save_state]: the [IOError] is caught inside. *)
Definition _save_state (o : save_outcome) (l : Listener) : Listener :=
  match o with
  | SaveOk =>
      note (Saved (last_processed_block l))
           (with_file (Json (scan_state (last_processed_block l))) l)
  | OpenFails => note SaveFailed l
  | WriteFails => note SaveFailed (with_file NotJson l)
  end.

(** The body of [for log in logs]. *)
Definition handle_log (l : Listener) (log : LogEntry) : Listener :=
  match parse_lock_event_from_log log with
  | Some parsed_event =>
      with_processor (submit_mint_transaction parsed_event)
                     (note (Submitted parsed_event) l)
  | None => l
  end.

(** What the collaborators answer during one turn of the poll loop. *)
Record Replies := {
  latest_block_reply : exc Z;
  get_logs_reply : Z -> Z -> str -> exc (list LogEntry);
  save_reply : save_outcome
}.

(** How one turn of the poll loop ends: the [continue] of the waiting
    branch, the end of the [try] body, or the [except Exception] handler. *)
Inductive outcome := NoWork | Scanned | Failed (e : exn).

(** One turn of the [while True] of [EventListener.run]. *)
Definition poll (cfg : Config) (r : Replies) (l : Listener) : Listener * outcome :=
  match latest_block_reply r with
  | Raise e => (l, Failed e)
  | Ret latest_block =>
      let from_block := last_processed_block l + 1 in
      let to_block := latest_block - confirmation_blocks cfg in
      if bool_decide (from_block > to_block) then (l, NoWork)
      else
        let l := note (Fetched from_block to_block (bridge_contract_address cfg)) l in
        match get_logs_reply r from_block to_block (bridge_contract_address cfg) with
        | Raise e => (l, Failed e)
        | Ret logs =>
            let l := foldl handle_log l logs in
            let l := set_cursor to_block l in
            let l := _save_state (save_reply r) l in
            (l, Scanned)
        end
  end.

(** The two tasks take turns: a turn of the poll loop, or a turn of the
    worker.  The worker only removes the head of the queue and the poll loop
    only appends to it, so a worker turn during an [await] of the poll loop
    amounts to one just before or just after it. *)
Inductive turn := Poll (r : Replies) | Work.

(** One turn of either task. *)
Definition step (cfg : Config) (l : Listener) (t : turn) : Listener :=
  match t with
  | Poll r => (poll cfg r l).1
  | Work => with_processor process_queue_turn l
  end.

(** [EventListener.run] up to a shutdown signal, over the turns taken. *)
Definition run (cfg : Config) (l : Listener) (ts : list turn) : Listener :=
  foldl (step cfg) l ts.

(** ** The mock node *)

(** The random draws and the clock reading of one turn. *)
Record Draws := {
  block_increment : Z;
  event_happens : bool;
  event_block : Z;
  amount_units : Z;
  now_ms : Z;
  jitter : Z
}.

(** [random.randint(a, b)] with its result [draw]: an empty range raises. *)
Definition randint (a b draw : Z) : exc Z :=
  if bool_decide (a <= b) then Ret draw else Raise ValueError.

(** [MockBlockchainNodeConnector.get_latest_block_number]: the new value of
    [_current_block], which is also the result. *)
Definition get_latest_block_number (d : Draws) (_current_block : Z) : Z :=
  _current_block + block_increment d.

(** [MockBlockchainNodeConnector.get_logs]. *)
Definition get_logs (d : Draws) (from_block to_block : Z) (address' : str)
  : exc (list LogEntry) :=
  if event_happens d then
    event_block ← randint from_block to_block (event_block d);
    let mock_log :=
      _generate_mock_lock_event_log (amount_units d) (now_ms d) (jitter d)
                                    event_block in
    if decide (lower (address mock_log) = lower address') then Ret [mock_log]
    else Ret []
  else Ret [].

(** A turn of the program as it is wired in [EventListener.__init__]. *)
Inductive mock_turn := MockPoll (d : Draws) (o : save_outcome) | MockWork.

(** The turns of the wired program: the node's answers are those of the
    mock, which threads [_current_block] from one poll to the next. *)
Fixpoint mock_turns (_current_block : Z) (ms : list mock_turn) : list turn :=
  match ms with
  | MockPoll d o :: rest =>
      let latest := get_latest_block_number d _current_block in
      Poll {| latest_block_reply := Ret latest;
              get_logs_reply := get_logs d;
              save_reply := o |} :: mock_turns latest rest
  | MockWork :: rest => Work :: mock_turns _current_block rest
  | [] => []
  end.

(** ** Vocabulary of the statements *)

(** A hexadecimal digit, either case. *)
Definition hexdigit (c : ascii) : bool :=
  match digit_value c with Some _ => true | None => false end.

(** A string of hexadecimal digits only. *)
Definition hex_string (s : str) : Prop := Forall (fun c => hexdigit c = true) s.

(** The value of a run of digits read after [acc]. *)
Definition digits_value (s : str) (acc : N) : N :=
  foldl (fun a c => (16 * a + default 0 (digit_value c))%N) acc s.

(** An address as the generator writes it: [0x] and forty digits. *)
Definition address_ok (s : str) : bool :=
  match s with
  | c :: d :: body =>
      is_char c "0" && is_char d "x" && bool_decide (length body = 40%nat) &&
      forallb hexdigit body
  | _ => false
  end.

(** An unsigned integer that fits 256 bits. *)
Definition uint256 (n : Z) : bool := (0 <=? n) && (n <? 2 ^ 256).

(** An event the fixed layout can carry: two addresses and three unsigned
    256-bit integers; the block number is free. *)
Definition valid_event (event : ParsedLockEvent) : bool :=
  address_ok (source_token event) && uint256 (destination_chain_id event) &&
  address_ok (recipient_address event) && uint256 (amount event) &&
  uint256 (nonce event).

(** The event of the round-trip example of the specification. *)
Definition sample_event : ParsedLockEvent :=
  {| source_token := lit "0xC02aaA39b223FE8D0A0e5C4F27eAD9083C756Cc2";
     destination_chain_id := 80001;
     recipient_address := lit "0x70997970C51812dc3A010C7d01b50e0d17dc79C8";
     amount := 1000 * 10 ^ 18;
     nonce := 123456789;
     block_number := 42 |}.

(** An event told from the others by its nonce. *)
Definition event_with_nonce (n : Z) : ParsedLockEvent :=
  {| source_token := source_token sample_event;
     destination_chain_id := destination_chain_id sample_event;
     recipient_address := recipient_address sample_event;
     amount := n * 10 ^ 18;
     nonce := n;
     block_number := 1000 + n |}.

(** The rejection rule in the words of the specification: the stripped data
    is not exactly 320 characters long or holds a character that is not a
    hexadecimal digit.  Its third case, an integer beyond the representable
    range, never applies: a Python [int] has no upper bound. *)
Definition spec_rejects (log : LogEntry) : bool :=
  let d := replace_0x (data log) in
  negb (length d =? 320)%nat || negb (forallb hexdigit d).

(** A log whose first field is no address at all. *)
Definition garbage_address_log : LogEntry :=
  {| address := bridge_contract_address CONFIG;
     topics := [lock_event_signature_hash];
     data := lit "0x" ++ replicate 64 "z"%char ++
             drop 64 (data_payload (source_token sample_event)
                        (destination_chain_id sample_event)
                        (recipient_address sample_event)
                        (amount sample_event) (nonce sample_event));
     blockNumber := 7 |}.

(** The events of a list that [submit_mint_transaction] lets through when
    the registry holds [seen]. *)
Fixpoint accepted (seen : gset Z) (events : list ParsedLockEvent)
  : list ParsedLockEvent :=
  match events with
  | [] => []
  | e :: rest =>
      if decide (nonce e ∈ seen) then accepted seen rest
      else e :: accepted (seen ∪ {[nonce e]}) rest
  end.

(** The worker keeps taking until the queue is empty. *)
Definition drain (p : Processor) : Processor :=
  queue_run p (replicate (length (_pending_transactions p)) Take).

(** The cursor found in the state file, if it holds one. *)
Definition persisted (l : Listener) : option Z :=
  match state_file l with
  | Json state => cursor_of state
  | _ => None
  end.

(** What a later listener has done since an earlier one. *)
Definition since (l l' : Listener) : list action :=
  drop (length (journal l)) (journal l').

(** The journal entry of a save. *)
Definition save_action (o : save_outcome) (cursor : Z) : action :=
  match o with SaveOk => Saved cursor | _ => SaveFailed end.

(** [_current_block] after some turns of the program. *)
Fixpoint mock_block (_current_block : Z) (ms : list mock_turn) : Z :=
  match ms with
  | MockPoll d _ :: rest => mock_block (get_latest_block_number d _current_block) rest
  | MockWork :: rest => mock_block _current_block rest
  | [] => _current_block
  end.

(** The listener built when there is no state file. *)
Definition fresh_listener : Listener :=
  {| last_processed_block := start_block CONFIG;
     tx_processor := new_processor;
     state_file := Missing;
     journal := [] |}.

(** Draws under which the chain grows by twelve blocks and one event is
    logged. *)
Definition sample_draws : Draws :=
  {| block_increment := 12; event_happens := true; event_block := 1003;
     amount_units := 1000; now_ms := 123456000; jitter := 789 |}.

(** ** The configuration reader *)

(** [s.startswith(prefix)]. *)
Definition startswith (s prefix : str) : bool :=
  bool_decide (take (length prefix) s = prefix).

(** [s.split(sep)] for a separator of one character: the pieces between the
    separators, empty pieces included. *)
Fixpoint split_on (sep : ascii) (s : str) : list str :=
  match s with
  | [] => [[]]
  | c :: r =>
      if is_char c sep then [] :: split_on sep r
      else match split_on sep r with
           | piece :: pieces => (c :: piece) :: pieces
           | [] => [[c]]
           end
  end.

(** [str.isspace] on one 8-bit character: the controls 0x09-0x0D and
    0x1C-0x1F, the blank, NEL and the no-break space. *)
Definition isspace (c : ascii) : bool :=
  let n := code c in
  ((9 <=? n) && (n <=? 13) || (28 <=? n) && (n <=? 32) ||
   (n =? 133) || (n =? 160))%N.

Fixpoint lstrip (s : str) : str :=
  match s with
  | c :: r => if isspace c then lstrip r else s
  | [] => []
  end.

Definition rstrip (s : str) : str := reverse (lstrip (reverse s)).

(** [s.strip()]. *)
Definition strip (s : str) : str := rstrip (lstrip s).

(** The two ways [get_config_value_7595] can raise. *)
Inductive config_exn := FileNotFoundError | IndexError.

(** The [for line in f] of [get_config_value_7595] over the lines the file
    yields, each with its line end. *)
Fixpoint scan_lines (key : str) (lines : list str) : config_exn + option str :=
  match lines with
  | [] => inr None
  | line :: rest =>
      if startswith line key then
        match split_on "=" line !! 1%nat with
        | Some value => inr (Some (strip value))
        | None => inl IndexError
        end
      else scan_lines key rest
  end.

(** [get_config_value_7595]; [file] is [None] when there is no [config.ini],
    otherwise its lines.  [inl] is a raised exception, [inr] the result. *)
Definition get_config_value_7595 (file : option (list str)) (key : str)
  : config_exn + option str :=
  match file with
  | None => inl FileNotFoundError
  | Some lines => scan_lines key lines
  end.

(** ** Shutdown and restart *)

(** The [finally] of [EventListener.run]: the worker is cancelled, so that
    no turn of it follows, and the state is saved once more. *)
Definition shutdown (o : save_outcome) (l : Listener) : Listener :=
  _save_state o l.

(** [main] run again on the state file a listener leaves behind. *)
Definition restart (cfg : Config) (l : Listener) : exc (option Listener) :=
  new_listener cfg (state_file l).

(** ** More vocabulary *)

(** The block ranges fetched, in order. *)
Definition fetched_ranges (acts : list action) : list (Z * Z) :=
  omap (fun a => match a with Fetched f t _ => Some (f, t) | _ => None end) acts.

(** Ranges that follow one another without gap or overlap, the first one
    starting right after [cursor]; the result is the end of the last one. *)
Fixpoint contiguous (cursor : Z) (ranges : list (Z * Z)) : option Z :=
  match ranges with
  | [] => Some cursor
  | (f, t) :: rest =>
      if bool_decide (f = cursor + 1 /\ f <= t) then contiguous t rest else None
  end.

(** A turn in which the node answers a log fetch on a non-empty range. *)
Definition answers (t : turn) : Prop :=
  match t with
  | Poll r => forall f t a, f <= t -> exists logs, get_logs_reply r f t a = Ret logs
  | Work => True
  end.

(** Two listeners that differ in their journals at most. *)
Definition same_state (l1 l2 : Listener) : Prop :=
  last_processed_block l1 = last_processed_block l2 /\
  tx_processor l1 = tx_processor l2 /\
  state_file l1 = state_file l2.

(** A processor whose registry is the set of the nonces it has let through,
    each of them once. *)
Definition coherent (p : Processor) : Prop :=
  NoDup (nonce <$> delivery p) /\
  list_to_set (nonce <$> delivery p) = _processed_nonces p.

(** A turn of the wired program in which the chain does not shrink, as
    under [random.randint(0, 2)]. *)
Definition grows (m : mock_turn) : Prop :=
  match m with
  | MockPoll d _ => 0 <= block_increment d
  | MockWork => True
  end.

(** The event the mock generator encodes under given draws. *)
Definition mock_event (d : Draws) : ParsedLockEvent :=
  {| source_token := lit "0xC02aaA39b223FE8D0A0e5C4F27eAD9083C756Cc2";
     destination_chain_id := 80001;
     recipient_address := lit "0x70997970C51812dc3A010C7d01b50e0d17dc79C8";
     amount := amount_units d * 10 ^ 18;
     nonce := now_ms d + jitter d;
     block_number := event_block d |}.

(** * Properties *)

Ltac ascii_cases c :=
  destruct c as [[] [] [] [] [] [] [] []]; try discriminate; try reflexivity.

(** ** Sample evaluations *)

Example int16_plain : int16 (lit "00ff") = Some 255.
Proof. reflexivity. Qed.

Example int16_sign : int16 (lit " -0x_1_f ") = Some (-31).
Proof. reflexivity. Qed.

Example int16_bad : int16 (lit "1__f") = None /\ int16 (lit "1f_") = None
  /\ int16 (lit "0x") = None /\ int16 (lit "") = None /\ int16 (lit "12g") = None
  /\ int16 (lit "_1") = None /\ int16 (lit "+ 1") = None.
Proof. repeat split. Qed.

Example hex_ex : hex 80001 = lit "0x13881" /\ hex 0 = lit "0x0" /\ hex (-5) = lit "-0x5".
Proof. repeat split. Qed.

Example zfill_ex : zfill 6 (lit "-2a") = lit "-0002a" /\ zfill 2 (lit "abc") = lit "abc".
Proof. repeat split. Qed.

Example replace_ex : replace_0x (lit "0x00xx0x1") = lit "0x1".
Proof. reflexivity. Qed.

(** [replace] drops a [0x] inside the data as well as the leading one. *)
Example inner_0x_dropped :
  let log := {| address := []; topics := [];
                data := replicate 64 "1"%char ++ lit "0x" ++ replicate 256 "2"%char;
                blockNumber := 3 |} in
  length (data log) = 322%nat /\ is_Some (parse_lock_event_from_log log).
Proof. split; [reflexivity|]. vm_compute. by eexists. Qed.

Example mock_log_parses :
  parse_lock_event_from_log (_generate_mock_lock_event_log 1000 123456000 789 42)
  = Some {| source_token := lit "0xC02aaA39b223FE8D0A0e5C4F27eAD9083C756Cc2";
            destination_chain_id := 80001;
            recipient_address := lit "0x70997970C51812dc3A010C7d01b50e0d17dc79C8";
            amount := 1000 * 10 ^ 18;
            nonce := 123456789;
            block_number := 42 |}.
Proof. vm_compute. reflexivity. Qed.

(** ** Characters and digit strings *)

Lemma hexdigit_plain (c : ascii) :
  hexdigit c = true ->
  to_ascii_space c = c /\ is_space c = false /\ is_char c "+" = false /\
  is_char c "-" = false /\ is_char c "_" = false /\ is_char c "x" = false /\
  is_char c "X" = false.
Proof. ascii_cases c; intros _; repeat split. Qed.

Lemma hexdigit_value (c : ascii) :
  hexdigit c = true -> exists v, digit_value c = Some v /\ (v < 16)%N.
Proof.
  unfold hexdigit. destruct (digit_value c) as [v|] eqn:E; [|discriminate].
  intros _. exists v. split; [reflexivity|].
  revert E. ascii_cases c; intros [= <-]; reflexivity.
Qed.

Lemma hex_string_app (s t : str) :
  hex_string (s ++ t) <-> hex_string s /\ hex_string t.
Proof. apply Forall_app. Qed.

Lemma hex_string_zeros (k : nat) : hex_string (replicate k "0"%char).
Proof. apply Forall_replicate. reflexivity. Qed.

Lemma hex_string_no_x (s : str) : hex_string s -> "x"%char ∉ s.
Proof.
  intros H Hin. unfold hex_string in H. rewrite Forall_forall in H.
  specialize (H _ Hin). discriminate.
Qed.

Lemma digits_value_app (s t : str) (acc : N) :
  digits_value (s ++ t) acc = digits_value t (digits_value s acc).
Proof. apply foldl_app. Qed.

Lemma digits_value_zeros (k : nat) (acc : N) :
  acc = 0%N -> digits_value (replicate k "0"%char) acc = 0%N.
Proof. intros ->. induction k as [|k IH]; [reflexivity|exact IH]. Qed.

(** On a run of digits the digit loop reads everything. *)
Lemma scan_digits_hex (s : str) (acc : N) (n : nat) :
  hex_string s ->
  scan_digits s false acc n = Some (digits_value s acc, (n + length s)%nat, []).
Proof.
  revert acc n. induction s as [|c s IH]; intros acc n H.
  - simpl. by rewrite Nat.add_0_r.
  - apply Forall_cons in H as [Hc Hs].
    destruct (hexdigit_plain c Hc) as (_ & _ & _ & _ & Hus & _).
    destruct (hexdigit_value c Hc) as (v & Hv & _).
    cbn [scan_digits]. rewrite Hus, Hv, IH; [|done].
    cbn [digits_value foldl length]. rewrite Hv. simpl.
    do 3 f_equal. lia.
Qed.

(** [int(s, 16)] on a non-empty run of digits. *)
Lemma int16_hex (s : str) :
  hex_string s -> s <> [] -> int16 s = Some (Z.of_N (digits_value s 0)).
Proof.
  intros H Hne.
  assert (Hmap : map to_ascii_space s = s).
  { clear Hne. induction H as [|c s Hc _ IH]; [done|].
    simpl. rewrite IH. by destruct (hexdigit_plain c Hc) as [-> _]. }
  destruct s as [|c s]; [done|].
  pose proof H as H0. apply Forall_cons in H0 as [Hc Hs].
  destruct (hexdigit_plain c Hc) as (_ & Hsp & Hpl & Hmi & Hus & _).
  unfold int16. rewrite Hmap. cbn [skip_spaces]. rewrite Hsp, Hpl, Hmi.
  assert (Hpre : skip_base_prefix (c :: s) = c :: s).
  { destruct s as [|d s]; [done|].
    apply Forall_cons in Hs as [Hd _].
    destruct (hexdigit_plain d Hd) as (_ & _ & _ & _ & _ & Hx & HX).
    cbn [skip_base_prefix]. by rewrite Hx, HX, andb_false_r. }
  rewrite Hpre, Hus, scan_digits_hex; [|done].
  reflexivity.
Qed.

(** ** [hex] of a non-negative integer *)

(** [Raw.to_N] agrees with [digits_value] on digits. *)
Lemma raw_to_N_digits (s : string) (acc : N) :
  hex_string (lit s) -> HexString.Raw.to_N s acc = digits_value (lit s) acc.
Proof.
  revert acc. induction s as [|c s IH]; intros acc H; [reflexivity|].
  apply Forall_cons in H as [Hc Hs].
  destruct (hexdigit_value c Hc) as (v & Hv & _). unfold digit_value in Hv.
  cbn [HexString.Raw.to_N lit list_ascii_of_string digits_value foldl].
  unfold digit_value. rewrite Hv. cbn [default from_option].
  rewrite IH by exact Hs. unfold digits_value, lit. f_equal. unfold id. lia.
Qed.

(** The digits [Raw.of_pos] writes in front of [rest]: lower-case digits, at
    least one, and no more than the size of the number asks for. *)
Lemma raw_of_pos_digits :
  forall (p : positive) (rest : string),
  exists ds : str,
    lit (HexString.Raw.of_pos p rest) = ds ++ lit rest /\
    hex_string ds /\ ds <> [] /\
    forall k : nat, (N.pos p < 16 ^ N.of_nat k)%N -> (length ds <= k)%nat.
Proof.
  fix raw_of_pos_digits 1. intros p rest.
  assert (Hbase : forall c : ascii, hexdigit c = true ->
    exists ds : str, lit (String c rest) = ds ++ lit rest /\ hex_string ds /\
      ds <> [] /\ forall k : nat, (N.pos p < 16 ^ N.of_nat k)%N -> (length ds <= k)%nat).
  { intros c Hc. exists [c]. repeat split; [by apply Forall_singleton|done|].
    intros [|k] Hk; [simpl in Hk; lia|simpl; lia]. }
  assert (Hstep : forall (q : positive) (c : ascii),
    hexdigit c = true -> (16 * N.pos q <= N.pos p)%N ->
    HexString.Raw.of_pos p rest = HexString.Raw.of_pos q (String c rest) ->
    (exists ds : str, lit (HexString.Raw.of_pos q (String c rest)) = ds ++ lit (String c rest) /\
       hex_string ds /\ ds <> [] /\
       forall k : nat, (N.pos q < 16 ^ N.of_nat k)%N -> (length ds <= k)%nat) ->
    exists ds : str, lit (HexString.Raw.of_pos p rest) = ds ++ lit rest /\
      hex_string ds /\ ds <> [] /\
      forall k : nat, (N.pos p < 16 ^ N.of_nat k)%N -> (length ds <= k)%nat).
  { intros q c Hc Hle Heq (ds & E & Hds & _ & Hlen).
    exists (ds ++ [c]). rewrite Heq, E. repeat split.
    - by rewrite <- app_assoc.
    - apply Forall_app. split; [done|by apply Forall_singleton].
    - by destruct ds.
    - intros [|k] Hk; [simpl in Hk; lia|].
      rewrite length_app. simpl.
      assert (N.pos q < 16 ^ N.of_nat k)%N.
      { rewrite Nat2N.inj_succ, N.pow_succ_r' in Hk. lia. }
      specialize (Hlen k H). lia. }
  do 4 try destruct p as [p|p|];
    first [ by apply Hbase
          | eapply (Hstep p); [ | | reflexivity | apply raw_of_pos_digits ];
            [reflexivity | lia] ].
Qed.

(** [hex(n)[2:]] for [0 <= n < 2 ** 256]. *)
Lemma hex_digits (n : Z) :
  0 <= n < 2 ^ 256 ->
  let ds := drop 2 (hex n) in
  hex_string ds /\ ds <> [] /\ (length ds <= 64)%nat /\
  Z.of_N (digits_value ds 0) = n.
Proof.
  intros Hn. destruct n as [|p|p]; [by repeat split; try (by repeat constructor); simpl; lia| |lia].
  destruct (raw_of_pos_digits p "") as (ds & E & Hds & Hne & Hlen).
  simpl in E. rewrite app_nil_r in E.
  assert (Hd : drop 2 (hex (Z.pos p)) = ds) by exact E.
  cbn zeta. rewrite Hd. repeat split; [done|done| |].
  - apply Hlen. change (16 ^ N.of_nat 64)%N with (Z.to_N (2 ^ 256)). lia.
  - rewrite <- E, <- raw_to_N_digits by (by rewrite E).
    by rewrite HexString.Raw.to_N_of_pos.
Qed.

(** ** List slices *)

Lemma take_app_n {A} (l k : list A) (n : nat) : length l = n -> take n (l ++ k) = l.
Proof. intros <-. apply take_app_length. Qed.

Lemma drop_app_n {A} (l k : list A) (n m : nat) :
  length l = n -> drop (n + m) (l ++ k) = drop m k.
Proof. intros <-. induction l as [|x l IH]; [reflexivity|exact IH]. Qed.

(** The five slices of a payload made of five 64-character fields. *)
Lemma slice_fields (f1 f2 f3 f4 f5 : str) :
  length f1 = 64%nat -> length f2 = 64%nat -> length f3 = 64%nat ->
  length f4 = 64%nat -> length f5 = 64%nat ->
  let d := f1 ++ f2 ++ f3 ++ f4 ++ f5 in
  length d = 320%nat /\ slice 0 64 d = f1 /\ slice 64 128 d = f2 /\
  slice 128 192 d = f3 /\ slice 192 256 d = f4 /\ slice 256 320 d = f5.
Proof.
  intros H1 H2 H3 H4 H5 d. subst d. unfold slice. repeat split.
  - rewrite !length_app. lia.
  - by apply take_app_n.
  - rewrite (drop_app_n f1 _ 64 0) by done. by apply take_app_n.
  - change 128%nat with (64 + 64)%nat. rewrite (drop_app_n f1 _ 64 64) by done.
    rewrite (drop_app_n f2 _ 64 0) by done. by apply take_app_n.
  - change 192%nat with (64 + 128)%nat. rewrite (drop_app_n f1 _ 64 128) by done.
    change 128%nat with (64 + 64)%nat. rewrite (drop_app_n f2 _ 64 64) by done.
    rewrite (drop_app_n f3 _ 64 0) by done. by apply take_app_n.
  - change 256%nat with (64 + 192)%nat. rewrite (drop_app_n f1 _ 64 192) by done.
    change 192%nat with (64 + 128)%nat. rewrite (drop_app_n f2 _ 64 128) by done.
    change 128%nat with (64 + 64)%nat. rewrite (drop_app_n f3 _ 64 64) by done.
    rewrite (drop_app_n f4 _ 64 0) by done.
    simpl. rewrite <- H5. apply firstn_all.
Qed.

(** ** [replace] and [zfill] on digit strings *)

Lemma replace_0x_no_x (s : str) : "x"%char ∉ s -> replace_0x s = s.
Proof.
  induction s as [|c r IH]; intros Hx; [reflexivity|].
  apply not_elem_of_cons in Hx as [_ Hr]. specialize (IH Hr).
  destruct r as [|d r']; [reflexivity|].
  change (replace_0x (c :: d :: r')) with
    (if is_char c "0" && is_char d "x" then replace_0x r'
     else c :: replace_0x (d :: r')).
  apply not_elem_of_cons in Hr as [Hd _].
  replace (is_char d "x") with false.
  - rewrite andb_false_r. by rewrite IH.
  - unfold is_char. by rewrite bool_decide_eq_false_2.
Qed.

Lemma zfill_hex (s : str) :
  hex_string s -> zfill 64 s = replicate (64 - length s) "0"%char ++ s.
Proof.
  intros H. destruct s as [|c r]; [by rewrite app_nil_r|].
  apply Forall_cons in H as [Hc _].
  destruct (hexdigit_plain c Hc) as (_ & _ & Hpl & Hmi & _).
  unfold zfill. by rewrite Hpl, Hmi.
Qed.

Lemma zfill_hex_field (s : str) :
  hex_string s -> (length s <= 64)%nat ->
  length (zfill 64 s) = 64%nat /\ hex_string (zfill 64 s) /\
  digits_value (zfill 64 s) 0 = digits_value s 0.
Proof.
  intros H Hlen. rewrite zfill_hex by done. repeat split.
  - rewrite length_app, length_replicate. lia.
  - apply hex_string_app. split; [apply hex_string_zeros|done].
  - by rewrite digits_value_app, digits_value_zeros.
Qed.

(** ** The fields of a valid event *)

Lemma address_field (a : str) :
  address_ok a = true ->
  let f := zfill 64 (replace_0x a) in
  length f = 64%nat /\ hex_string f /\ lit "0x" ++ last_chars 40 f = a.
Proof.
  destruct a as [|c [|d body]]; [done..|].
  cbn [address_ok]. rewrite !andb_true_iff. intros [[[Hc Hd] Hlen] Hhex].
  apply bool_decide_eq_true in Hc, Hd, Hlen. subst c d.
  assert (Hb : hex_string body).
  { apply Forall_forall. intros x Hx. rewrite forallb_forall in Hhex.
    apply Hhex. by apply list_elem_of_In. }
  assert (Hr : replace_0x ("0" :: "x" :: body)%char = body).
  { change (replace_0x ("0" :: "x" :: body)%char) with (replace_0x body).
    by apply replace_0x_no_x, hex_string_no_x. }
  cbn zeta. rewrite Hr.
  destruct (zfill_hex_field body Hb) as (L & Hf & _); [lia|].
  repeat split; [done..|].
  rewrite zfill_hex by done. unfold last_chars.
  rewrite length_app, length_replicate, Hlen. simpl Nat.sub.
  by rewrite (drop_app_n _ _ 24 0) by apply length_replicate.
Qed.

Lemma uint256_field (n : Z) :
  uint256 n = true ->
  let f := zfill 64 (drop 2 (hex n)) in
  length f = 64%nat /\ hex_string f /\ int16 f = Some n.
Proof.
  unfold uint256. rewrite andb_true_iff, Z.leb_le, Z.ltb_lt. intros Hn.
  destruct (hex_digits n Hn) as (Hds & Hne & Hlen & Hval).
  destruct (zfill_hex_field _ Hds Hlen) as (L & Hf & Hv).
  cbn zeta. repeat split; [done..|].
  rewrite int16_hex; [by rewrite Hv, Hval|done|].
  intros E. by rewrite E in L.
Qed.

(** ** The decoder *)

(** When the decoder answers, and with what. *)
Lemma parse_lock_event_from_log_Some (log : LogEntry) (event : ParsedLockEvent) :
  parse_lock_event_from_log log = Some event <->
  let d := replace_0x (data log) in
  length d = 320%nat /\
  exists c a n,
    int16 (slice 64 128 d) = Some c /\ int16 (slice 192 256 d) = Some a /\
    int16 (slice 256 320 d) = Some n /\
    event = {| source_token := lit "0x" ++ last_chars 40 (slice 0 64 d);
               destination_chain_id := c;
               recipient_address := lit "0x" ++ last_chars 40 (slice 128 192 d);
               amount := a; nonce := n; block_number := blockNumber log |}.
Proof.
  unfold parse_lock_event_from_log. cbn zeta.
  change (64 * 5)%nat with 320%nat.
  destruct (Nat.eqb_spec (length (replace_0x (data log))) 320) as [E|E]; cbn [negb].
  - destruct (int16 (slice 64 128 _)) as [c|]; cbn [mbind option_bind];
      [|split; [done|by intros (_ & ? & ? & ? & ? & _)]].
    destruct (int16 (slice 192 256 _)) as [a|]; cbn [mbind option_bind];
      [|split; [done|by intros (_ & ? & ? & ? & _ & ? & _)]].
    destruct (int16 (slice 256 320 _)) as [n|]; cbn [mbind option_bind];
      [|split; [done|by intros (_ & ? & ? & ? & _ & _ & ? & _)]].
    split.
    + intros [= <-]. split; [done|]. by exists c, a, n.
    + intros (_ & c' & a' & n' & [= <-] & [= <-] & [= <-] & ->). done.
  - split; [done|]. by intros [? _].
Qed.

(** A payload of 320 digits has three readable integer fields. *)
Lemma hex_fields_parse (d : str) (a b : nat) :
  hex_string d -> length d = 320%nat -> (a < b <= 320)%nat ->
  is_Some (int16 (slice a b d)).
Proof.
  intros H L Hab. rewrite int16_hex; [done| |].
  - unfold slice. by apply Forall_take, Forall_drop.
  - intros E. apply (f_equal length) in E. unfold slice in E.
    rewrite length_take, length_drop in E. simpl in E. lia.
Qed.

(** The generator is [lock_event_log] at the event it draws. *)
Lemma mock_log_is_lock_event_log (amount_units now_ms jitter block_number : Z) :
  _generate_mock_lock_event_log amount_units now_ms jitter block_number =
  lock_event_log
    {| source_token := lit "0xC02aaA39b223FE8D0A0e5C4F27eAD9083C756Cc2";
       destination_chain_id := 80001;
       recipient_address := lit "0x70997970C51812dc3A010C7d01b50e0d17dc79C8";
       amount := amount_units * 10 ^ 18;
       nonce := now_ms + jitter;
       block_number := block_number |}.
Proof. reflexivity. Qed.

(** C4. Decode round trip: the log built from a valid event (two addresses
    of forty digits after [0x], three integers in [0, 2^256)) in the layout
    of five fields of 64 characters decodes to that very event, block number
    included. *)
Theorem decode_round_trip (event : ParsedLockEvent) :
  valid_event event = true ->
  parse_lock_event_from_log (lock_event_log event) = Some event.
Proof.
  unfold valid_event. rewrite !andb_true_iff.
  intros [[[[Hs Hc] Hr] Ha] Hn].
  destruct (address_field _ Hs) as (L1 & X1 & E1).
  destruct (uint256_field _ Hc) as (L2 & X2 & E2).
  destruct (address_field _ Hr) as (L3 & X3 & E3).
  destruct (uint256_field _ Ha) as (L4 & X4 & E4).
  destruct (uint256_field _ Hn) as (L5 & X5 & E5).
  destruct (slice_fields _ _ _ _ _ L1 L2 L3 L4 L5) as (L & S1 & S2 & S3 & S4 & S5).
  apply parse_lock_event_from_log_Some. cbn zeta.
  assert (Hd : replace_0x (data (lock_event_log event)) =
               data_payload (source_token event) (destination_chain_id event)
                 (recipient_address event) (amount event) (nonce event)).
  { unfold lock_event_log, data. cbn [lit list_ascii_of_string app].
    match goal with |- replace_0x (_ :: _ :: ?p) = _ =>
      change (replace_0x ("0" :: "x" :: p)%char) with (replace_0x p) end.
    apply replace_0x_no_x, hex_string_no_x. unfold data_payload.
    repeat (apply hex_string_app; split); done. }
  rewrite Hd. unfold data_payload. split; [exact L|].
  exists (destination_chain_id event), (amount event), (nonce event).
  rewrite S1, S2, S3, S4, S5, E1, E3.
  repeat split; [done..|]. by destruct event.
Qed.

Lemma decode_round_trip_witness :
  valid_event sample_event = true /\
  parse_lock_event_from_log (lock_event_log sample_event) = Some sample_event.
Proof. split; [reflexivity|]. apply (decode_round_trip sample_event). reflexivity. Defined.

(** C3, as stated, fails: 320 characters that are not all digits are
    decoded when the stray characters sit in an address field. *)
Lemma decode_error_iff_counterexample :
  ~ (parse_lock_event_from_log garbage_address_log = None <->
     spec_rejects garbage_address_log = true).
Proof.
  assert (E : parse_lock_event_from_log garbage_address_log =
    Some {| source_token := lit "0xzzzzzzzzzzzzzzzzzzzzzzzzzzzzzzzzzzzzzzzz";
            destination_chain_id := 80001;
            recipient_address := lit "0x70997970C51812dc3A010C7d01b50e0d17dc79C8";
            amount := 1000 * 10 ^ 18;
            nonce := 123456789;
            block_number := 7 |}) by (vm_compute; reflexivity).
  assert (R : spec_rejects garbage_address_log = true) by (vm_compute; reflexivity).
  intros [_ H]. specialize (H R). rewrite E in H. discriminate.
Qed.

(** C3, amended. The decoder answers [None] exactly when the data, every
    [0x] removed, is not 320 characters long or one of the three integer
    fields is refused by [int(_, 16)]; the two address fields are sliced
    without any check.  In particular no event comes out of data of another
    length. *)
Theorem decode_error_iff (log : LogEntry) :
  let d := replace_0x (data log) in
  (parse_lock_event_from_log log = None <->
     length d <> 320%nat \/ int16 (slice 64 128 d) = None \/
     int16 (slice 192 256 d) = None \/ int16 (slice 256 320 d) = None) /\
  (length d <> 320%nat -> parse_lock_event_from_log log = None).
Proof.
  cbn zeta.
  assert (Hiff : parse_lock_event_from_log log = None <->
     length (replace_0x (data log)) <> 320%nat \/
     int16 (slice 64 128 (replace_0x (data log))) = None \/
     int16 (slice 192 256 (replace_0x (data log))) = None \/
     int16 (slice 256 320 (replace_0x (data log))) = None).
  { split.
    - intros HN.
      destruct (decide (length (replace_0x (data log)) = 320%nat)) as [L|L]; [|by left].
      right.
      destruct (int16 (slice 64 128 _)) as [c|] eqn:Ec; [|by left].
      destruct (int16 (slice 192 256 _)) as [a|] eqn:Ea; [|by right; left].
      destruct (int16 (slice 256 320 _)) as [n|] eqn:En; [|by right; right].
      exfalso.
      assert (is_Some (parse_lock_event_from_log log)) as [ev Hev].
      { eexists. apply parse_lock_event_from_log_Some. cbn zeta.
        split; [exact L|]. exists c, a, n. by rewrite Ec, Ea, En. }
      congruence.
    - intros H. destruct (parse_lock_event_from_log log) as [ev|] eqn:E; [|done].
      apply parse_lock_event_from_log_Some in E. cbn zeta in E.
      destruct E as (L & c & a & n & Ec & Ea & En & _).
      destruct H as [H|[H|[H|H]]]; congruence. }
  split; [exact Hiff|]. intros L. apply Hiff. by left.
Qed.

(** C9. The decoder reads [data] and [blockNumber] only: its answer is the
    same under any [address] and [topics], and stripped data of 320
    characters whose integer fields are readable (as they are when all 320
    are digits) is decoded, the block number carried over. *)
Theorem parse_ignores_address_and_topics
    (log : LogEntry) (address' : str) (topics' : list str) :
  let d := replace_0x (data log) in
  let log' := {| address := address'; topics := topics';
                 data := data log; blockNumber := blockNumber log |} in
  length d = 320%nat ->
  hex_string d \/
    (is_Some (int16 (slice 64 128 d)) /\ is_Some (int16 (slice 192 256 d)) /\
     is_Some (int16 (slice 256 320 d))) ->
  parse_lock_event_from_log log' = parse_lock_event_from_log log /\
  exists event, parse_lock_event_from_log log' = Some event /\
                block_number event = blockNumber log.
Proof.
  cbn zeta. intros L H. split; [reflexivity|].
  assert (is_Some (int16 (slice 64 128 (replace_0x (data log)))) /\
          is_Some (int16 (slice 192 256 (replace_0x (data log)))) /\
          is_Some (int16 (slice 256 320 (replace_0x (data log)))))
    as ([c Ec] & [a Ea] & [n En]).
  { destruct H as [H|H]; [|exact H].
    repeat split; apply hex_fields_parse; (done || lia). }
  eexists. split.
  - apply parse_lock_event_from_log_Some. cbn zeta. cbn [data blockNumber].
    split; [exact L|]. exists c, a, n. by rewrite Ec, Ea, En.
  - reflexivity.
Qed.

Lemma parse_ignores_address_and_topics_witness :
  exists event,
    parse_lock_event_from_log
      {| address := lit "0x0000000000000000000000000000000000000000";
         topics := [];
         data := data garbage_address_log;
         blockNumber := blockNumber garbage_address_log |} = Some event /\
    block_number event = 7.
Proof.
  refine (proj2 (parse_ignores_address_and_topics garbage_address_log
            (lit "0x0000000000000000000000000000000000000000") [] _ _)).
  - vm_compute. reflexivity.
  - right. vm_compute. repeat split; eexists; reflexivity.
Defined.

(** ** The queue *)

Lemma queue_run_app (p : Processor) (ops1 ops2 : list queue_op) :
  queue_run p (ops1 ++ ops2) = queue_run (queue_run p ops1) ops2.
Proof. apply foldl_app. Qed.

Lemma queue_run_delivery (ops : list queue_op) (p : Processor) :
  delivery (queue_run p ops) =
  delivery p ++ accepted (_processed_nonces p) (submitted ops).
Proof.
  revert p. induction ops as [|o ops IH]; intros p.
  - simpl. by rewrite app_nil_r.
  - change (queue_run p (o :: ops)) with (queue_run (queue_step p o) ops).
    rewrite IH. destruct o as [e|]; simpl.
    + unfold submit_mint_transaction.
      destruct (decide (nonce e ∈ _processed_nonces p)); [done|].
      unfold delivery. simpl. by rewrite <- !app_assoc.
    + unfold process_queue_turn, delivery.
      destruct (_pending_transactions p) as [|e q] eqn:E; simpl; rewrite ?E; [done|].
      by rewrite <- !app_assoc.
Qed.

Lemma drain_taken (p : Processor) :
  taken (drain p) = delivery p /\ _pending_transactions (drain p) = [].
Proof.
  unfold drain, delivery. destruct p as [q seen done]. simpl.
  revert done. induction q as [|e q IH]; intros done; simpl.
  - by rewrite app_nil_r.
  - unfold process_queue_turn. cbn [_pending_transactions _processed_nonces taken].
    destruct (IH (done ++ [e])) as [-> ->]. by rewrite <- app_assoc.
Qed.

Lemma accepted_fresh (seen : gset Z) (events : list ParsedLockEvent) :
  NoDup (nonce <$> events) -> (forall e, e ∈ events -> nonce e ∉ seen) ->
  accepted seen events = events.
Proof.
  revert seen. induction events as [|e rest IH]; intros seen Hnd Hfresh; [done|].
  simpl in *. apply NoDup_cons in Hnd as [Hnot Hnd].
  destruct (decide (nonce e ∈ seen)) as [Hin|_].
  - exfalso. by apply (Hfresh e); [left|].
  - f_equal. apply IH; [done|]. intros e' He'.
    apply not_elem_of_union. split; [apply Hfresh; by right|].
    apply not_elem_of_singleton. intros E. apply Hnot. rewrite <- E.
    by apply list_elem_of_fmap_2.
Qed.

Lemma accepted_seen (n : Z) (seen : gset Z) (events : list ParsedLockEvent) :
  n ∈ seen -> filter (fun e => nonce e = n) (accepted seen events) = [].
Proof.
  revert seen. induction events as [|e rest IH]; intros seen Hin; [done|].
  simpl. destruct (decide (nonce e ∈ seen)) as [He|He]; [by apply IH|].
  rewrite filter_cons_False by (intros E; apply He; by rewrite E).
  apply IH. set_solver.
Qed.

Lemma accepted_first (n : Z) (seen : gset Z) (pre rest : list ParsedLockEvent)
    (e1 : ParsedLockEvent) :
  nonce e1 = n -> n ∉ seen -> (forall e, e ∈ pre -> nonce e <> n) ->
  filter (fun e => nonce e = n) (accepted seen (pre ++ e1 :: rest)) = [e1].
Proof.
  intros E1. revert seen. induction pre as [|e pre IH]; intros seen Hn Hpre; simpl.
  - rewrite E1. destruct (decide (n ∈ seen)); [done|].
    rewrite filter_cons_True by done. f_equal. apply accepted_seen. set_solver.
  - assert (He : nonce e <> n) by (apply Hpre; by left).
    assert (Hpre' : forall e', e' ∈ pre -> nonce e' <> n)
      by (intros; apply Hpre; by right).
    destruct (decide (nonce e ∈ seen)); [by apply IH|].
    rewrite filter_cons_False by done. apply IH; [|done].
    apply not_elem_of_union. split; [done|]. by apply not_elem_of_singleton.
Qed.

(** However often a nonce is submitted, one event with it gets through. *)
Lemma accepted_once (n : Z) (seen : gset Z) (events : list ParsedLockEvent) :
  n ∉ seen -> n ∈ nonce <$> events ->
  length (filter (fun e => nonce e = n) (accepted seen events)) = 1%nat.
Proof.
  revert seen. induction events as [|e rest IH]; intros seen Hn Hin; simpl in *.
  - by apply elem_of_nil in Hin.
  - destruct (decide (nonce e = n)) as [E|E].
    + assert (Hf : filter (fun e => nonce e = n) (accepted seen ([] ++ e :: rest)) = [e]).
      { apply accepted_first; [done..|]. intros ? H. by apply elem_of_nil in H. }
      simpl in Hf. by rewrite Hf.
    + apply elem_of_cons in Hin as [Hin|Hin]; [congruence|].
      destruct (decide (nonce e ∈ seen)); [by apply IH|].
      rewrite filter_cons_False by done. apply IH; [|done].
      apply not_elem_of_union. split; [done|]. by apply not_elem_of_singleton.
Qed.

Lemma queue_run_nonces (ops : list queue_op) (p : Processor) :
  forall e, e ∈ submitted ops -> nonce e ∈ _processed_nonces (queue_run p ops).
Proof.
  revert p. induction ops as [|o ops IH]; intros p e He; [by apply elem_of_nil in He|].
  change (queue_run p (o :: ops)) with (queue_run (queue_step p o) ops).
  assert (Hmono : forall ops' q n, n ∈ _processed_nonces q ->
                    n ∈ _processed_nonces (queue_run q ops')).
  { clear. induction ops' as [|o ops' IH]; intros q n Hn; [done|].
    apply IH. destruct o as [e|]; simpl.
    - unfold submit_mint_transaction. case_decide; [done|]. simpl. set_solver.
    - unfold process_queue_turn. by destruct (_pending_transactions q). }
  destruct o as [e'|]; simpl in He.
  - apply elem_of_cons in He as [->|He]; [|by apply IH].
    apply Hmono. simpl. unfold submit_mint_transaction.
    case_decide; [done|]. simpl. set_solver.
  - by apply IH.
Qed.

Lemma submitted_app (ops1 ops2 : list queue_op) :
  submitted (ops1 ++ ops2) = submitted ops1 ++ submitted ops2.
Proof. apply omap_app. Qed.

Lemma submitted_Submit (events : list ParsedLockEvent) :
  submitted (Submit <$> events) = events.
Proof. induction events as [|e events IH]; [done|]. simpl. by f_equal. Qed.

(** C5. Of two events with the same nonce submitted in one life of the
    processor, whatever else the two tasks do around them, the second is
    dropped by a normal return that leaves the processor as it was, and one
    event with that nonce, no more, is handed to the worker: the first of
    the two when no earlier submission carried the nonce. *)
Theorem duplicate_nonce_discarded (pre mid post : list queue_op)
    (e1 e2 : ParsedLockEvent) :
  nonce e1 = nonce e2 ->
  let before := queue_run new_processor (pre ++ Submit e1 :: mid) in
  let p := queue_run new_processor (pre ++ Submit e1 :: mid ++ Submit e2 :: post) in
  submit_mint_transaction e2 before = before /\
  length (filter (fun e => nonce e = nonce e1) (delivery p)) = 1%nat /\
  length (filter (fun e => nonce e = nonce e1) (taken (drain p))) = 1%nat /\
  ((forall e, e ∈ submitted pre -> nonce e <> nonce e1) ->
   filter (fun e => nonce e = nonce e1) (taken (drain p)) = [e1]).
Proof.
  intros E before p.
  assert (Hsub : submitted (pre ++ Submit e1 :: mid ++ Submit e2 :: post) =
                 submitted pre ++ e1 :: submitted (mid ++ Submit e2 :: post)).
  { by rewrite submitted_app. }
  assert (Hdel : delivery p =
            accepted ∅ (submitted pre ++ e1 :: submitted (mid ++ Submit e2 :: post))).
  { unfold p. by rewrite queue_run_delivery, Hsub. }
  assert (Hone : length (filter (fun e => nonce e = nonce e1) (delivery p)) = 1%nat).
  { rewrite Hdel. apply accepted_once; [apply not_elem_of_empty|].
    apply list_elem_of_fmap_2, elem_of_app. right. by left. }
  destruct (drain_taken p) as [Hdrain _].
  repeat split.
  - unfold submit_mint_transaction. rewrite decide_True; [done|].
    rewrite <- E. apply queue_run_nonces.
    rewrite submitted_app. apply elem_of_app. right. by left.
  - exact Hone.
  - by rewrite Hdrain.
  - intros Hfirst. rewrite Hdrain, Hdel.
    apply accepted_first; [done|apply not_elem_of_empty|done].
Qed.

Lemma duplicate_nonce_discarded_witness :
  let e1 := event_with_nonce 5 in
  let e2 := {| source_token := source_token sample_event;
               destination_chain_id := 1;
               recipient_address := recipient_address sample_event;
               amount := 99; nonce := 5; block_number := 2000 |} in
  filter (fun e => nonce e = 5)
    (taken (drain (queue_run new_processor
       ([Submit (event_with_nonce 4)] ++
        Submit e1 :: [Take] ++ Submit e2 :: [Submit (event_with_nonce 6)]))))
  = [e1].
Proof.
  intros e1 e2.
  refine (proj2 (proj2 (proj2
    (duplicate_nonce_discarded [Submit (event_with_nonce 4)] [Take]
       [Submit (event_with_nonce 6)] e1 e2 _))) _).
  - reflexivity.
  - intros e He. apply list_elem_of_singleton in He. subst e. simpl. lia.
Defined.

(** C6. Events submitted with pairwise distinct nonces reach the worker in
    the order of their submission, wherever its turns fall: what it has
    taken followed by what still waits is the list as submitted, and once
    the queue is drained it has taken all of it, in that order. *)
Theorem fifo_order (ops : list queue_op) :
  NoDup (nonce <$> submitted ops) ->
  let p := queue_run new_processor ops in
  taken p ++ _pending_transactions p = submitted ops /\
  taken (drain p) = submitted ops.
Proof.
  intros Hnd p.
  assert (Hdel : delivery p = submitted ops).
  { unfold p. rewrite queue_run_delivery. simpl.
    apply accepted_fresh; [done|]. intros. apply not_elem_of_empty. }
  split; [exact Hdel|].
  destruct (drain_taken p) as [-> _]. exact Hdel.
Qed.

Lemma fifo_order_witness :
  let ops := [Submit (event_with_nonce 1); Take; Submit (event_with_nonce 2);
              Submit (event_with_nonce 3); Take] in
  taken (drain (queue_run new_processor ops)) =
  [event_with_nonce 1; event_with_nonce 2; event_with_nonce 3].
Proof.
  intros ops. refine (proj2 (fifo_order ops _)).
  apply (bool_decide_unpack _). vm_compute. exact I.
Defined.

(** ** The poll loop *)

Lemma foldl_handle_log (logs : list LogEntry) (l : Listener) :
  let events := omap parse_lock_event_from_log logs in
  let l' := foldl handle_log l logs in
  last_processed_block l' = last_processed_block l /\
  state_file l' = state_file l /\
  journal l' = journal l ++ (Submitted <$> events) /\
  tx_processor l' = queue_run (tx_processor l) (Submit <$> events).
Proof.
  revert l. induction logs as [|log logs IH]; intros l.
  - simpl. by rewrite app_nil_r.
  - cbn zeta in *. cbn [foldl omap list_omap].
    destruct (IH (handle_log l log)) as (Hc & Hf & Hj & Hp).
    rewrite Hc, Hf, Hj, Hp. unfold handle_log.
    destruct (parse_lock_event_from_log log) as [e|]; [|done].
    simpl. by rewrite <- app_assoc.
Qed.

Lemma _save_state_spec (o : save_outcome) (l : Listener) :
  let l' := _save_state o l in
  last_processed_block l' = last_processed_block l /\
  tx_processor l' = tx_processor l /\
  journal l' = journal l ++ [save_action o (last_processed_block l)] /\
  state_file l' = match o with
                  | SaveOk => Json (scan_state (last_processed_block l))
                  | OpenFails => state_file l
                  | WriteFails => NotJson
                  end.
Proof. by destruct o. Qed.

(** A turn that finds work and whose log fetch returns. *)
Lemma poll_scanned (cfg : Config) (r : Replies) (l : Listener)
    (latest_block : Z) (logs : list LogEntry) :
  let from_block := last_processed_block l + 1 in
  let to_block := latest_block - confirmation_blocks cfg in
  latest_block_reply r = Ret latest_block ->
  from_block <= to_block ->
  get_logs_reply r from_block to_block (bridge_contract_address cfg) = Ret logs ->
  poll cfg r l =
  (_save_state (save_reply r)
     (set_cursor to_block
        (foldl handle_log
           (note (Fetched from_block to_block (bridge_contract_address cfg)) l)
           logs)),
   Scanned).
Proof.
  cbn zeta. intros Hl Hw Hg. unfold poll. rewrite Hl.
  rewrite bool_decide_eq_false_2 by lia. by rewrite Hg.
Qed.

(** Any turn of the poll loop: the journal grows, a fetch starts right after
    the cursor, and the cursor does not move back. *)
Lemma poll_progress (cfg : Config) (r : Replies) (l : Listener) :
  let l' := (poll cfg r l).1 in
  last_processed_block l <= last_processed_block l' /\
  exists added, journal l' = journal l ++ added /\
    forall f t a, Fetched f t a ∈ added -> last_processed_block l < f.
Proof.
  cbn zeta. unfold poll.
  destruct (latest_block_reply r) as [latest_block|e];
    [|split; [simpl; lia|exists []; split; [by rewrite app_nil_r|by intros ??? ?%elem_of_nil]]].
  case_bool_decide as Hw;
    [split; [simpl; lia|exists []; split; [by rewrite app_nil_r|by intros ??? ?%elem_of_nil]]|].
  destruct (get_logs_reply r _ _ _) as [logs|e].
  - cbn [fst].
    destruct (_save_state_spec (save_reply r)
      (set_cursor (latest_block - confirmation_blocks cfg)
        (foldl handle_log
           (note (Fetched (last_processed_block l + 1)
                    (latest_block - confirmation_blocks cfg)
                    (bridge_contract_address cfg)) l) logs))) as (Hc & _ & Hj & _).
    destruct (foldl_handle_log logs
      (note (Fetched (last_processed_block l + 1)
               (latest_block - confirmation_blocks cfg)
               (bridge_contract_address cfg)) l)) as (_ & _ & Hj' & _).
    cbn zeta in *. rewrite Hc, Hj. cbn [set_cursor last_processed_block journal].
    rewrite Hj'. cbn [note journal]. split; [lia|].
    eexists. split; [rewrite <- !app_assoc; reflexivity|].
    intros f t a Hin. rewrite !elem_of_app in Hin.
    destruct Hin as [Hin|[Hin|[Hin|Hin]]].
    + apply list_elem_of_singleton in Hin. injection Hin as -> _ _. lia.
    + apply list_elem_of_fmap in Hin as (? & ? & _). discriminate.
    + apply list_elem_of_singleton in Hin. discriminate.
    + apply list_elem_of_singleton in Hin. by destruct (save_reply r).
  - cbn [fst note last_processed_block journal]. split; [lia|].
    eexists. split; [reflexivity|].
    intros f t a Hin. apply list_elem_of_singleton in Hin.
    injection Hin as -> _ _. lia.
Qed.

Lemma step_progress (cfg : Config) (t : turn) (l : Listener) :
  let l' := step cfg l t in
  last_processed_block l <= last_processed_block l' /\
  exists added, journal l' = journal l ++ added /\
    forall f t a, Fetched f t a ∈ added -> last_processed_block l < f.
Proof.
  destruct t as [r|]; [apply poll_progress|].
  cbn zeta. simpl. split; [lia|]. exists []. split; [by rewrite app_nil_r|].
  by intros ??? ?%elem_of_nil.
Qed.

Lemma run_app (cfg : Config) (l : Listener) (ts1 ts2 : list turn) :
  run cfg l (ts1 ++ ts2) = run cfg (run cfg l ts1) ts2.
Proof. apply foldl_app. Qed.

(** Any run: the cursor does not move back and no fetch starts at or below
    the cursor the run began with. *)
Lemma run_progress (cfg : Config) (ts : list turn) (l : Listener) :
  let l' := run cfg l ts in
  last_processed_block l <= last_processed_block l' /\
  exists added, journal l' = journal l ++ added /\
    forall f t a, Fetched f t a ∈ added -> last_processed_block l < f.
Proof.
  revert l. induction ts as [|t ts IH]; intros l; cbn zeta.
  - split; [simpl; lia|]. exists []. split; [by rewrite app_nil_r|].
    by intros ??? ?%elem_of_nil.
  - change (run cfg l (t :: ts)) with (run cfg (step cfg l t) ts).
    destruct (step_progress cfg t l) as (H1 & a1 & J1 & F1).
    destruct (IH (step cfg l t)) as (H2 & a2 & J2 & F2).
    cbn zeta in *. split; [lia|].
    exists (a1 ++ a2). rewrite J2, J1, <- app_assoc. split; [done|].
    intros f t' a Hin. apply elem_of_app in Hin as [Hin|Hin].
    + by apply (F1 f t' a).
    + specialize (F2 f t' a Hin). lia.
Qed.

Lemma since_app (l l' : Listener) (added : list action) :
  journal l' = journal l ++ added -> since l l' = added.
Proof. unfold since. intros ->. apply drop_app_length. Qed.

(** The journal of a turn that finds work and whose log fetch returns. *)
Lemma poll_scanned_since (cfg : Config) (r : Replies) (l : Listener)
    (latest_block : Z) (logs : list LogEntry) :
  let from_block := last_processed_block l + 1 in
  let to_block := latest_block - confirmation_blocks cfg in
  latest_block_reply r = Ret latest_block ->
  from_block <= to_block ->
  get_logs_reply r from_block to_block (bridge_contract_address cfg) = Ret logs ->
  since l (poll cfg r l).1 =
    [Fetched from_block to_block (bridge_contract_address cfg)] ++
    (Submitted <$> omap parse_lock_event_from_log logs) ++
    [CursorSet to_block; save_action (save_reply r) to_block].
Proof.
  cbn zeta. intros Hl Hw Hg.
  rewrite (poll_scanned cfg r l latest_block logs Hl Hw Hg). cbn [fst].
  match goal with |- context [_save_state ?o ?x] =>
    destruct (_save_state_spec o x) as (_ & _ & Hj & _) end.
  match goal with |- context [foldl handle_log ?x logs] =>
    destruct (foldl_handle_log logs x) as (_ & _ & Hj' & _) end.
  cbn zeta in *. cbn [set_cursor note last_processed_block journal] in *.
  apply since_app. rewrite Hj, Hj'. by rewrite <- !app_assoc.
Qed.

(** ** The mock node *)

Lemma mock_turns_app (b : Z) (ms1 ms2 : list mock_turn) :
  mock_turns b (ms1 ++ ms2) = mock_turns b ms1 ++ mock_turns (mock_block b ms1) ms2.
Proof.
  revert b. induction ms1 as [|[d o|] ms1 IH]; intros b; simpl; [done|..];
    by rewrite IH.
Qed.

(** On a non-empty range the mock [get_logs] returns. *)
Lemma get_logs_returns (d : Draws) (from_block to_block : Z) (a : str) :
  from_block <= to_block -> exists logs, get_logs d from_block to_block a = Ret logs.
Proof.
  intros H. unfold get_logs, randint. destruct (event_happens d); [|by eexists].
  rewrite bool_decide_eq_true_2 by done. simpl.
  destruct (decide _); by eexists.
Qed.

(** ** The claims on the poll loop *)

(** C1. Over any sequence of turns, whatever the node answers, the cursor
    never moves back; and in the program as wired a turn of the poll loop
    that finds work ([from_block <= to_block]) leaves the cursor at the
    latest block fetched in that turn less the confirmation depth. *)
Theorem cursor_monotone (cfg : Config) (l : Listener) (ts : list turn)
    (current_block : Z) (ms : list mock_turn) (d : Draws) (o : save_outcome) :
  let before := run cfg l (mock_turns current_block ms) in
  let after := run cfg l (mock_turns current_block (ms ++ [MockPoll d o])) in
  let latest_block := get_latest_block_number d (mock_block current_block ms) in
  let from_block := last_processed_block before + 1 in
  let to_block := latest_block - confirmation_blocks cfg in
  last_processed_block l <= last_processed_block (run cfg l ts) /\
  last_processed_block before <= last_processed_block after /\
  (from_block <= to_block -> last_processed_block after = to_block).
Proof.
  cbv beta zeta. rewrite !mock_turns_app, !run_app. repeat split.
  - apply run_progress.
  - apply run_progress.
  - intros Hw. cbn [mock_turns run foldl step].
    destruct (get_logs_returns d _ _ (bridge_contract_address cfg) Hw) as [logs Hg].
    erewrite poll_scanned; [|reflexivity|exact Hw|exact Hg].
    cbn [fst]. by destruct o.
Qed.

Lemma cursor_monotone_witness :
  last_processed_block
    (run CONFIG fresh_listener
       (mock_turns 1000 ([MockWork] ++ [MockPoll sample_draws SaveOk]))) = 1006.
Proof.
  refine (proj2 (proj2 (cursor_monotone CONFIG fresh_listener [] 1000 [MockWork]
                          sample_draws SaveOk)) _).
  vm_compute. discriminate.
Defined.

(** C2. A turn in which [last_processed_block + 1 > latest_block -
    confirmation_blocks] ends in the waiting branch, not in the error
    handler, and leaves the listener as it was: nothing is fetched, nothing
    is queued, the cursor and the state file keep their values. *)
Theorem no_work_idle (cfg : Config) (r : Replies) (l : Listener) (latest_block : Z) :
  latest_block_reply r = Ret latest_block ->
  last_processed_block l + 1 > latest_block - confirmation_blocks cfg ->
  poll cfg r l = (l, NoWork) /\ since l (poll cfg r l).1 = [].
Proof.
  intros Hl Hw. unfold poll. rewrite Hl, bool_decide_eq_true_2 by done.
  split; [done|]. unfold since. apply drop_all.
Qed.

Lemma no_work_idle_witness :
  poll CONFIG {| latest_block_reply := Ret 1005;
                 get_logs_reply := get_logs sample_draws;
                 save_reply := SaveOk |} fresh_listener
  = (fresh_listener, NoWork).
Proof.
  refine (proj1 (no_work_idle CONFIG _ fresh_listener 1005 _ _)).
  - reflexivity.
  - vm_compute. reflexivity.
Defined.

(** C7. In a turn that scans a range the listener fetches, hands every
    decoded event of the answer to [submit_mint_transaction] in order, and
    only then sets the cursor to [to_block] and saves.  At the end every
    decoded event has its nonce in the registry, and a cursor found in the
    state file is [to_block] or the one that was there before. *)
Theorem enqueue_before_persist (cfg : Config) (r : Replies) (l : Listener)
    (latest_block : Z) (logs : list LogEntry) :
  let from_block := last_processed_block l + 1 in
  let to_block := latest_block - confirmation_blocks cfg in
  let events := omap parse_lock_event_from_log logs in
  let l' := (poll cfg r l).1 in
  latest_block_reply r = Ret latest_block ->
  from_block <= to_block ->
  get_logs_reply r from_block to_block (bridge_contract_address cfg) = Ret logs ->
  since l l' =
    [Fetched from_block to_block (bridge_contract_address cfg)] ++
    (Submitted <$> events) ++
    [CursorSet to_block; save_action (save_reply r) to_block] /\
  tx_processor l' = queue_run (tx_processor l) (Submit <$> events) /\
  (forall e, e ∈ events -> nonce e ∈ _processed_nonces (tx_processor l')) /\
  (forall c, persisted l' = Some c -> c = to_block \/ persisted l = Some c).
Proof.
  cbn zeta. intros Hl Hw Hg. rewrite (poll_scanned cfg r l latest_block logs Hl Hw Hg).
  cbn [fst].
  match goal with |- context [_save_state ?o ?x] =>
    destruct (_save_state_spec o x) as (_ & Hp & Hj & Hf) end.
  match goal with |- context [foldl handle_log ?x logs] =>
    destruct (foldl_handle_log logs x) as (_ & Hf' & Hj' & Hp') end.
  cbn zeta in *. cbn [set_cursor note last_processed_block journal tx_processor state_file] in *.
  assert (Hq : tx_processor (_save_state (save_reply r)
            (set_cursor (latest_block - confirmation_blocks cfg)
               (foldl handle_log
                  (note (Fetched (last_processed_block l + 1)
                           (latest_block - confirmation_blocks cfg)
                           (bridge_contract_address cfg)) l) logs))) =
          queue_run (tx_processor l)
            (Submit <$> omap parse_lock_event_from_log logs)).
  { by rewrite Hp, Hp'. }
  repeat split.
  - apply since_app. rewrite Hj, Hj'. by rewrite <- !app_assoc.
  - exact Hq.
  - intros e He. rewrite Hq. apply queue_run_nonces.
    by rewrite submitted_Submit.
  - intros c. unfold persisted. rewrite Hf.
    destruct (save_reply r); [|rewrite Hf'; by right|done].
    intros [= <-]. by left.
Qed.

Lemma enqueue_before_persist_witness :
  let r := {| latest_block_reply := Ret 1012;
              get_logs_reply := fun _ _ _ =>
                Ret [lock_event_log sample_event; garbage_address_log;
                     lock_event_log (event_with_nonce 9)];
              save_reply := SaveOk |} in
  exists e,
    since fresh_listener (poll CONFIG r fresh_listener).1 =
    [Fetched 1001 1006 (bridge_contract_address CONFIG);
     Submitted sample_event; Submitted e; Submitted (event_with_nonce 9);
     CursorSet 1006; Saved 1006].
Proof.
  intros r. eexists.
  refine (eq_trans (proj1 (enqueue_before_persist CONFIG r fresh_listener 1012
            _ eq_refl _ eq_refl)) _).
  - vm_compute. discriminate.
  - vm_compute. reflexivity.
Defined.

(** C10. A save that fails is not seen by the loop: the turn ends like any
    scan, the cursor in memory is [to_block] although the state file holds
    what it held before or a truncated text, and in whatever follows in the
    same process the cursor stays at or above [to_block] and every fetch
    starts above it, so the range is not fetched again. *)
Theorem save_failure_invisible (cfg : Config) (r : Replies) (l : Listener)
    (latest_block : Z) (logs : list LogEntry) (ts : list turn) :
  let from_block := last_processed_block l + 1 in
  let to_block := latest_block - confirmation_blocks cfg in
  let l' := (poll cfg r l).1 in
  latest_block_reply r = Ret latest_block ->
  from_block <= to_block ->
  get_logs_reply r from_block to_block (bridge_contract_address cfg) = Ret logs ->
  save_reply r <> SaveOk ->
  (poll cfg r l).2 = Scanned /\
  last_processed_block l' = to_block /\
  (state_file l' = state_file l \/ state_file l' = NotJson) /\
  (Saved to_block ∉ since l l') /\
  to_block <= last_processed_block (run cfg l' ts) /\
  (forall f t a, Fetched f t a ∈ since l' (run cfg l' ts) -> to_block < f).
Proof.
  cbn zeta. intros Hl Hw Hg Hs.
  pose proof (poll_scanned_since cfg r l latest_block logs Hl Hw Hg) as Hsince.
  cbn zeta in Hsince. rewrite Hsince.
  rewrite (poll_scanned cfg r l latest_block logs Hl Hw Hg). cbn [fst snd].
  match goal with |- context [_save_state ?o ?x] =>
    destruct (_save_state_spec o x) as (Hc & _ & _ & Hf);
    set (l' := _save_state o x) in * end.
  match goal with _ : context [foldl handle_log ?x logs] |- _ =>
    destruct (foldl_handle_log logs x) as (_ & Hf' & _ & _) end.
  cbn zeta in *. cbn [set_cursor note last_processed_block state_file] in *.
  destruct (run_progress cfg ts l') as (Hmono & added & Hj & Hfetch).
  cbn zeta in *. rewrite Hc in Hmono, Hfetch.
  repeat split.
  - exact Hc.
  - rewrite Hf. destruct (save_reply r); [done|by left; rewrite Hf'|by right].
  - intros Hin. rewrite !elem_of_app in Hin. destruct Hin as [Hin|[Hin|Hin]].
    + apply list_elem_of_singleton in Hin. discriminate.
    + apply list_elem_of_fmap in Hin as (? & ? & _). discriminate.
    + apply elem_of_cons in Hin as [Hin|Hin]; [discriminate|].
      apply list_elem_of_singleton in Hin. by destruct (save_reply r).
  - exact Hmono.
  - intros f t a Hin. rewrite (since_app _ _ _ Hj) in Hin. eauto.
Qed.

Lemma save_failure_invisible_witness :
  let r := {| latest_block_reply := Ret 1012;
              get_logs_reply := fun _ _ _ => Ret [lock_event_log sample_event];
              save_reply := OpenFails |} in
  (poll CONFIG r fresh_listener).2 = Scanned /\
  last_processed_block (poll CONFIG r fresh_listener).1 = 1006.
Proof.
  intros r.
  destruct (save_failure_invisible CONFIG r fresh_listener 1012
              [lock_event_log sample_event] [Poll r; Work]) as (H1 & H2 & _).
  - reflexivity.
  - vm_compute. discriminate.
  - reflexivity.
  - discriminate.
  - split; [exact H1|exact H2].
Defined.

(** ** Loading the state *)

Lemma _load_state_absent_or_not_json (cfg : Config) :
  _load_state cfg Missing = Ret (scan_state (start_block cfg)) /\
  _load_state cfg NotJson = Ret (scan_state (start_block cfg)).
Proof. by split. Qed.

Lemma _load_state_scan_state (cfg : Config) (cursor : Z) :
  _load_state cfg (Json (scan_state cursor)) = Ret (scan_state cursor) /\
  cursor_of (scan_state cursor) = Some cursor.
Proof. by split. Qed.

(** C8 fails on a state file that is JSON but no state record: an object
    without the key makes the construction raise [KeyError], an array makes
    it raise [TypeError], and a record whose cursor is a string is accepted
    as it stands, so that the listener starts without an integer cursor.  In
    none of the three cases is the configured start block used. *)
Theorem load_state_wrong_shape :
  new_listener CONFIG (Json (JObject [])) = Raise KeyError /\
  new_listener CONFIG (Json (JArray [JInt 1000])) = Raise TypeError /\
  _load_state CONFIG (Json (JObject [(lit "last_processed_block", JString (lit "abc"))]))
    = Ret (JObject [(lit "last_processed_block", JString (lit "abc"))]) /\
  new_listener CONFIG
    (Json (JObject [(lit "last_processed_block", JString (lit "abc"))])) = Ret None.
Proof. repeat split. Qed.


(** * Further properties *)

Example split_on_ex :
  split_on "=" (lit "a=b=c") = [lit "a"; lit "b"; lit "c"] /\
  split_on "=" (lit "") = [lit ""] /\ split_on "=" (lit "=") = [lit ""; lit ""].
Proof. repeat split. Qed.

Example strip_ex : strip (lit "  a b " ++ [ch 10]) = lit "a b".
Proof. reflexivity. Qed.

Example get_config_value_ex :
  let file := Some [lit "# note" ++ [ch 10]; lit "names = x" ++ [ch 10];
                    lit "name = Goerli " ++ [ch 10]; lit "bad"] in
  get_config_value_7595 file (lit "name") = inr (Some (lit "x")) /\
  get_config_value_7595 file (lit "bad") = inl IndexError /\
  get_config_value_7595 file (lit "rpc") = inr None /\
  get_config_value_7595 None (lit "name") = inl FileNotFoundError.
Proof. repeat split. Qed.

(** ** More on the decoder *)

Lemma scan_digits_bound (s : str) (prev_us : bool) (acc : N) (n : nat)
    (v : N) (n' : nat) (rest : str) :
  scan_digits s prev_us acc n = Some (v, n', rest) ->
  (acc < 16 ^ N.of_nat n)%N ->
  (v < 16 ^ N.of_nat n')%N /\ (n' <= n + length s)%nat.
Proof.
  revert prev_us acc n. induction s as [|c s IH]; intros prev_us acc n H Hacc.
  - simpl in H. destruct prev_us; [done|]. injection H as <- <- _. split; [done|lia].
  - cbn [scan_digits] in H. destruct (is_char c "_").
    + destruct prev_us; [done|]. destruct (IH _ _ _ H Hacc). split; [done|simpl; lia].
    + destruct (digit_value c) as [d|] eqn:Ed.
      * assert (hexdigit c = true) as Hc by (unfold hexdigit; by rewrite Ed).
        destruct (hexdigit_value c Hc) as (d' & Ed' & Hd). rewrite Ed in Ed'.
        injection Ed' as <-.
        destruct (IH _ _ _ H) as [Hv Hn].
        { rewrite Nat2N.inj_succ, N.pow_succ_r'. lia. }
        split; [done|simpl; lia].
      * destruct prev_us; [done|]. injection H as <- <- _. split; [done|lia].
Qed.

Lemma skip_spaces_length (s : str) : (length (skip_spaces s) <= length s)%nat.
Proof.
  induction s as [|c s IH]; [done|]. simpl. destruct (is_space c); simpl; lia.
Qed.

Lemma skip_base_prefix_length (s : str) :
  (length (skip_base_prefix s) <= length s)%nat.
Proof.
  destruct s as [|c [|d r]]; [done..|]. cbn [skip_base_prefix].
  destruct (is_char c "0" && (is_char d "x" || is_char d "X")); [|done].
  destruct r as [|u r']; [simpl; lia|]. destruct (is_char u "_"); simpl; lia.
Qed.

(** What [int(s, 16)] returns is below [16 ** len(s)] in absolute value. *)
Lemma int16_bound (s : str) (z : Z) :
  int16 s = Some z -> Z.abs z < 16 ^ Z.of_nat (length s).
Proof.
  unfold int16.
  pose proof (skip_spaces_length (map to_ascii_space s)) as H1.
  rewrite length_map in H1.
  destruct (skip_spaces (map to_ascii_space s)) as [|c r] eqn:E1.
  { by cbn. }
  set (p := if is_char c "+" then (false, r)
            else if is_char c "-" then (true, r) else (false, c :: r)).
  assert (Hp : (length p.2 <= length s)%nat).
  { unfold p. destruct (is_char c "+"), (is_char c "-"); simpl in *; lia. }
  destruct p as [negative s2]. cbn [snd] in Hp.
  pose proof (skip_base_prefix_length s2) as H3.
  destruct (skip_base_prefix s2) as [|c3 r3] eqn:E3; [done|].
  destruct (is_char c3 "_"); [done|].
  destruct (scan_digits (c3 :: r3) false 0 0) as [[[v digits] rest]|] eqn:Es; [|done].
  destruct (scan_digits_bound _ _ _ _ _ _ _ Es) as [Hv Hd]; [simpl; lia|].
  case_bool_decide; [done|]. destruct (skip_spaces rest); [|done].
  intros [= <-].
  assert (Hle : (16 ^ N.of_nat digits <= 16 ^ N.of_nat (length s))%N).
  { apply N.pow_le_mono_r; lia. }
  assert (Hz : Z.of_N (16 ^ N.of_nat (length s)) = 16 ^ Z.of_nat (length s)).
  { rewrite N2Z.inj_pow. by rewrite nat_N_Z. }
  destruct negative; lia.
Qed.

Lemma slice_length (a b : nat) (s : str) : (length (slice a b s) <= b - a)%nat.
Proof. unfold slice. rewrite length_take. lia. Qed.

(** X1. A decoded event carries, as its two addresses, [0x] followed by
    characters 24 to 63 and 152 to 191 of the stripped data: forty
    characters each, whatever stands in the 24 characters before them. *)
Theorem decoded_addresses (log : LogEntry) (event : ParsedLockEvent) :
  parse_lock_event_from_log log = Some event ->
  let d := replace_0x (data log) in
  source_token event = lit "0x" ++ slice 24 64 d /\
  recipient_address event = lit "0x" ++ slice 152 192 d /\
  length (source_token event) = 42%nat /\
  length (recipient_address event) = 42%nat.
Proof.
  intros H. apply parse_lock_event_from_log_Some in H. cbn zeta in *.
  destruct H as (L & c & a & n & _ & _ & _ & ->). cbn [source_token recipient_address].
  assert (H1 : last_chars 40 (slice 0 64 (replace_0x (data log))) =
               slice 24 64 (replace_0x (data log))).
  { unfold last_chars, slice. rewrite length_take, length_drop, L. simpl.
    rewrite drop_0. by rewrite take_drop_commute. }
  assert (H2 : last_chars 40 (slice 128 192 (replace_0x (data log))) =
               slice 152 192 (replace_0x (data log))).
  { unfold last_chars, slice. rewrite length_take, length_drop, L. simpl.
    rewrite take_drop_commute, drop_drop. simpl. by rewrite take_drop_commute. }
  rewrite H1, H2. repeat split; unfold slice;
    rewrite length_app, length_take, length_drop, L; reflexivity.
Qed.

Lemma decoded_addresses_witness :
  exists event,
    parse_lock_event_from_log garbage_address_log = Some event /\
    source_token event = lit "0xzzzzzzzzzzzzzzzzzzzzzzzzzzzzzzzzzzzzzzzz".
Proof.
  eexists. split; [vm_compute; reflexivity|].
  refine (eq_trans (proj1 (decoded_addresses garbage_address_log _ _)) _).
  - vm_compute. reflexivity.
  - vm_compute. reflexivity.
Defined.

(** X2. The three integers of a decoded event lie strictly between
    [-2^256] and [2^256], and its block number is the one of the log. *)
Theorem decoded_integers_bounded (log : LogEntry) (event : ParsedLockEvent) :
  parse_lock_event_from_log log = Some event ->
  Z.abs (destination_chain_id event) < 2 ^ 256 /\
  Z.abs (amount event) < 2 ^ 256 /\
  Z.abs (nonce event) < 2 ^ 256 /\
  block_number event = blockNumber log.
Proof.
  intros H. apply parse_lock_event_from_log_Some in H. cbn zeta in *.
  destruct H as (L & c & a & n & Hc & Ha & Hn & ->).
  cbn [destination_chain_id amount nonce block_number].
  assert (Hb : forall s z, (length s <= 64)%nat -> int16 s = Some z ->
                           Z.abs z < 2 ^ 256).
  { intros s z Hs Hz. apply int16_bound in Hz.
    assert (16 ^ Z.of_nat (length s) <= 16 ^ 64)
      by (apply Z.pow_le_mono_r; lia).
    change (16 ^ 64) with (2 ^ 256) in *. lia. }
  repeat split.
  - exact (Hb _ _ (slice_length 64 128 _) Hc).
  - exact (Hb _ _ (slice_length 192 256 _) Ha).
  - exact (Hb _ _ (slice_length 256 320 _) Hn).
Qed.

Lemma decoded_integers_bounded_witness :
  Z.abs (nonce sample_event) < 2 ^ 256.
Proof.
  refine (proj1 (proj2 (proj2
    (decoded_integers_bounded (lock_event_log sample_event) sample_event _)))).
  vm_compute. reflexivity.
Defined.

Lemma digits_value_lt (s : str) (acc : N) (k : nat) :
  hex_string s -> (acc < 16 ^ N.of_nat k)%N ->
  (digits_value s acc < 16 ^ N.of_nat (k + length s))%N.
Proof.
  revert acc k. induction s as [|c s IH]; intros acc k H Hacc.
  - simpl. by rewrite Nat.add_0_r.
  - apply Forall_cons in H as [Hc Hs].
    destruct (hexdigit_value c Hc) as (v & Hv & Hlt).
    cbn [digits_value foldl length]. rewrite Hv. cbn [default from_option].
    replace (k + S (length s))%nat with (S k + length s)%nat by lia.
    apply (IH _ (S k) Hs). rewrite Nat2N.inj_succ, N.pow_succ_r'. unfold id. lia.
Qed.

(** [hex(n)[2:]] for any [n >= 0]. *)
Lemma hex_digits_nonneg (n : Z) :
  0 <= n ->
  let ds := drop 2 (hex n) in
  hex_string ds /\ ds <> [] /\ Z.of_N (digits_value ds 0) = n.
Proof.
  intros Hn. destruct n as [|p|p]; [by repeat split; try (by repeat constructor)| |lia].
  destruct (raw_of_pos_digits p "") as (ds & E & Hds & Hne & _).
  simpl in E. rewrite app_nil_r in E.
  assert (Hd : drop 2 (hex (Z.pos p)) = ds) by exact E.
  cbn zeta. rewrite Hd. repeat split; [done..|].
  rewrite <- E, <- raw_to_N_digits by (by rewrite E).
  by rewrite HexString.Raw.to_N_of_pos.
Qed.

(** The field the generator writes for an integer [n >= 0]: digits only, 64
    of them or more, and more than 64 from [2^256] on. *)
Lemma int_field (n : Z) :
  0 <= n ->
  let f := zfill 64 (drop 2 (hex n)) in
  hex_string f /\ (64 <= length f)%nat /\ (2 ^ 256 <= n -> (64 < length f)%nat).
Proof.
  intros Hn. destruct (hex_digits_nonneg n Hn) as (Hds & Hne & Hval).
  cbn zeta. rewrite zfill_hex by done. repeat split.
  - apply hex_string_app. split; [apply hex_string_zeros|done].
  - rewrite length_app, length_replicate. lia.
  - intros Hbig. rewrite length_app, length_replicate.
    pose proof (digits_value_lt _ 0 0 Hds) as Hlt. simpl in Hlt.
    assert (Hlt' : (digits_value (drop 2 (hex n)) 0 <
                    16 ^ N.of_nat (length (drop 2 (hex n))))%N) by (apply Hlt; lia).
    destruct (decide (length (drop 2 (hex n)) <= 64)%nat) as [Hle|]; [|lia].
    exfalso.
    assert (16 ^ N.of_nat (length (drop 2 (hex n))) <= 16 ^ 64)%N
      by (apply N.pow_le_mono_r; lia).
    assert (Z.of_N (16 ^ 64) = 2 ^ 256) by reflexivity. lia.
Qed.

(** A log whose data is the payload of a valid event decodes to it. *)
Lemma payload_decodes (log : LogEntry) (event : ParsedLockEvent) :
  valid_event event = true ->
  data log = lit "0x" ++ data_payload (source_token event)
               (destination_chain_id event) (recipient_address event)
               (amount event) (nonce event) ->
  blockNumber log = block_number event ->
  parse_lock_event_from_log log = Some event.
Proof.
  unfold valid_event. rewrite !andb_true_iff.
  intros [[[[Hs Hc] Hr] Ha] Hn] Hdata Hblock.
  destruct (address_field _ Hs) as (L1 & X1 & E1).
  destruct (uint256_field _ Hc) as (L2 & X2 & E2).
  destruct (address_field _ Hr) as (L3 & X3 & E3).
  destruct (uint256_field _ Ha) as (L4 & X4 & E4).
  destruct (uint256_field _ Hn) as (L5 & X5 & E5).
  destruct (slice_fields _ _ _ _ _ L1 L2 L3 L4 L5) as (L & S1 & S2 & S3 & S4 & S5).
  apply parse_lock_event_from_log_Some. cbn zeta.
  assert (Hd : replace_0x (data log) =
               data_payload (source_token event) (destination_chain_id event)
                 (recipient_address event) (amount event) (nonce event)).
  { rewrite Hdata. cbn [lit list_ascii_of_string app].
    match goal with |- replace_0x (_ :: _ :: ?p) = _ =>
      change (replace_0x ("0" :: "x" :: p)%char) with (replace_0x p) end.
    apply replace_0x_no_x, hex_string_no_x. unfold data_payload.
    repeat (apply hex_string_app; split); done. }
  rewrite Hd, Hblock. unfold data_payload. split; [exact L|].
  exists (destination_chain_id event), (amount event), (nonce event).
  rewrite S1, S2, S3, S4, S5, E1, E3.
  repeat split; [done..|]. by destruct event.
Qed.

(** X3. The bound of 256 bits is sharp for the generator's layout: with
    valid addresses and integers that are not negative, one integer at or
    above [2^256] makes the payload longer than 320 characters, and the
    decoder answers [None]. *)
Theorem oversized_integer_rejected (event : ParsedLockEvent) :
  address_ok (source_token event) = true ->
  address_ok (recipient_address event) = true ->
  0 <= destination_chain_id event -> 0 <= amount event -> 0 <= nonce event ->
  2 ^ 256 <= destination_chain_id event \/ 2 ^ 256 <= amount event \/
    2 ^ 256 <= nonce event ->
  parse_lock_event_from_log (lock_event_log event) = None.
Proof.
  intros Hs Hr Hc Ha Hn Hbig.
  destruct (address_field _ Hs) as (L1 & X1 & _).
  destruct (address_field _ Hr) as (L3 & X3 & _).
  destruct (int_field _ Hc) as (X2 & L2 & B2).
  destruct (int_field _ Ha) as (X4 & L4 & B4).
  destruct (int_field _ Hn) as (X5 & L5 & B5).
  cbn zeta in *.
  destruct (parse_lock_event_from_log (lock_event_log event)) as [ev|] eqn:E; [|done].
  exfalso. apply parse_lock_event_from_log_Some in E. cbn zeta in E.
  destruct E as [L _]. revert L.
  unfold lock_event_log, data. cbn [lit list_ascii_of_string app].
  match goal with |- context [replace_0x (_ :: _ :: ?p)] =>
    change (replace_0x ("0" :: "x" :: p)%char) with (replace_0x p) end.
  rewrite replace_0x_no_x.
  - unfold data_payload. rewrite !length_app.
    destruct Hbig as [H|[H|H]]; [specialize (B2 H)|specialize (B4 H)|specialize (B5 H)]; lia.
  - apply hex_string_no_x. unfold data_payload.
    repeat (apply hex_string_app; split); done.
Qed.

Lemma oversized_integer_rejected_witness :
  parse_lock_event_from_log
    (lock_event_log
       {| source_token := source_token sample_event;
          destination_chain_id := 80001;
          recipient_address := recipient_address sample_event;
          amount := 2 ^ 256;
          nonce := 1;
          block_number := 9 |}) = None.
Proof.
  apply oversized_integer_rejected; try reflexivity; simpl; lia.
Defined.

(** X4. What the mock node returns to the listener decodes: under draws in
    the generator's ranges (amount units between 100 and 5000, a nonce that
    fits 256 bits) a fetch on a non-empty range for the bridge contract
    returns no log or one, and the one decodes to the event drawn. *)
Theorem mock_logs_decode (d : Draws) (from_block to_block : Z) :
  from_block <= to_block ->
  100 <= amount_units d <= 5000 ->
  0 <= now_ms d + jitter d < 2 ^ 256 ->
  exists logs,
    get_logs d from_block to_block (bridge_contract_address CONFIG) = Ret logs /\
    logs = (if event_happens d then [lock_event_log (mock_event d)] else []) /\
    forall log, log ∈ logs -> parse_lock_event_from_log log = Some (mock_event d).
Proof.
  intros Hrange Hunits Hnonce.
  assert (Hparse : parse_lock_event_from_log (lock_event_log (mock_event d)) =
                   Some (mock_event d)).
  { apply payload_decodes; [|reflexivity..].
    unfold valid_event, mock_event. cbn [source_token destination_chain_id
      recipient_address amount nonce].
    rewrite !andb_true_iff. repeat split; try reflexivity.
    - unfold uint256. rewrite andb_true_iff, Z.leb_le, Z.ltb_lt.
      assert (10 ^ 18 = 1000000000000000000) by reflexivity.
      assert (2 ^ 256 > 5000 * 1000000000000000000) by reflexivity. lia.
    - unfold uint256. rewrite andb_true_iff, Z.leb_le, Z.ltb_lt. lia. }
  eexists. split; [|split; [reflexivity|]].
  - unfold get_logs, randint. rewrite bool_decide_eq_true_2 by done.
    destruct (event_happens d); [|reflexivity]. cbn [mbind exc_bind].
    rewrite decide_True by reflexivity. reflexivity.
  - intros log Hin. destruct (event_happens d).
    + apply list_elem_of_singleton in Hin. by subst log.
    + by apply elem_of_nil in Hin.
Qed.

Lemma mock_logs_decode_witness :
  exists logs,
    get_logs sample_draws 1001 1006 (bridge_contract_address CONFIG) = Ret logs /\
    logs = [lock_event_log (mock_event sample_draws)] /\
    forall log, log ∈ logs ->
      parse_lock_event_from_log log = Some (mock_event sample_draws).
Proof.
  apply (mock_logs_decode sample_draws 1001 1006); simpl; lia.
Defined.

(** ** More on the queue *)

Lemma queue_run_registry (ops : list queue_op) (p : Processor) :
  _processed_nonces (queue_run p ops) =
  _processed_nonces p ∪ list_to_set (nonce <$> submitted ops).
Proof.
  revert p. induction ops as [|o ops IH]; intros p.
  - simpl. by rewrite union_empty_r_L.
  - change (queue_run p (o :: ops)) with (queue_run (queue_step p o) ops).
    rewrite IH. destruct o as [e|]; simpl.
    + unfold submit_mint_transaction. case_decide as Hin; simpl.
      * apply set_eq. intros x. rewrite !elem_of_union, elem_of_singleton.
        split; [tauto|]. intros [?|[->|?]]; tauto.
      * apply set_eq. intros x. rewrite !elem_of_union, elem_of_singleton. tauto.
    + unfold process_queue_turn. by destruct (_pending_transactions p).
Qed.

Lemma accepted_fresh_nonces (events : list ParsedLockEvent) (seen : gset Z) :
  NoDup (nonce <$> accepted seen events) /\
  (forall e, e ∈ accepted seen events -> nonce e ∉ seen) /\
  seen ∪ list_to_set (nonce <$> accepted seen events) =
    seen ∪ list_to_set (nonce <$> events).
Proof.
  revert seen. induction events as [|e rest IH]; intros seen.
  - simpl. repeat split; [constructor|by intros ? ?%elem_of_nil].
  - simpl. destruct (decide (nonce e ∈ seen)) as [Hin|Hin].
    + destruct (IH seen) as (Hnd & Hfr & Heq). repeat split; [done..|].
      rewrite Heq. apply set_eq. intros x.
      rewrite !elem_of_union, elem_of_singleton.
      split; [tauto|]. intros [?|[->|?]]; tauto.
    + destruct (IH (seen ∪ {[nonce e]})) as (Hnd & Hfr & Heq). repeat split.
      * simpl. apply NoDup_cons. split; [|done].
        intros Hx. apply list_elem_of_fmap in Hx as (e' & Hn & He').
        apply (Hfr e' He'). rewrite <- Hn. apply elem_of_union. right.
        by apply elem_of_singleton.
      * intros e' He'. apply elem_of_cons in He' as [->|He']; [done|].
        specialize (Hfr e' He'). intros Hc. apply Hfr. apply elem_of_union. by left.
      * simpl. apply set_eq. intros x.
        assert (Hx := proj1 (set_eq _ _) Heq x).
        rewrite !elem_of_union, !elem_of_singleton in Hx.
        rewrite !elem_of_union, !elem_of_singleton. tauto.
Qed.

Lemma accepted_sublist (events : list ParsedLockEvent) (seen : gset Z) :
  accepted seen events `sublist_of` events.
Proof.
  revert seen. induction events as [|e rest IH]; intros seen; [constructor|].
  simpl. destruct (decide (nonce e ∈ seen)).
  - by apply sublist_cons.
  - by apply sublist_skip.
Qed.

(** X5. At any moment of a processor's life the registry is the set of the
    nonces submitted so far, taking an event out never removes one, and the
    events taken or still queued carry pairwise distinct nonces, which are
    again the nonces of the registry. *)
Theorem registry_invariant (ops : list queue_op) :
  let p := queue_run new_processor ops in
  _processed_nonces p = list_to_set (nonce <$> submitted ops) /\
  NoDup (nonce <$> delivery p) /\
  list_to_set (nonce <$> delivery p) = _processed_nonces p.
Proof.
  cbn zeta. rewrite queue_run_registry, queue_run_delivery. simpl.
  destruct (accepted_fresh_nonces (submitted ops) ∅) as (Hnd & _ & Heq).
  rewrite !union_empty_l_L in *. by repeat split.
Qed.

(** X6. What the worker receives is a subsequence of what was submitted:
    every event it takes or will take was handed to
    [submit_mint_transaction], and in that order. *)
Theorem delivery_sublist (ops : list queue_op) :
  delivery (queue_run new_processor ops) `sublist_of` submitted ops.
Proof. rewrite queue_run_delivery. simpl. apply accepted_sublist. Qed.

(** ** More on the poll loop *)

(** The ways a turn of the poll loop can go. *)
Lemma poll_inv (cfg : Config) (r : Replies) (l : Listener) :
  (poll cfg r l = (l, NoWork) \/ exists e, poll cfg r l = (l, Failed e)) \/
  exists latest_block,
    latest_block_reply r = Ret latest_block /\
    last_processed_block l + 1 <= latest_block - confirmation_blocks cfg /\
    ((exists e,
        get_logs_reply r (last_processed_block l + 1)
          (latest_block - confirmation_blocks cfg)
          (bridge_contract_address cfg) = Raise e /\
        poll cfg r l =
          (note (Fetched (last_processed_block l + 1)
                   (latest_block - confirmation_blocks cfg)
                   (bridge_contract_address cfg)) l, Failed e)) \/
     (exists logs,
        get_logs_reply r (last_processed_block l + 1)
          (latest_block - confirmation_blocks cfg)
          (bridge_contract_address cfg) = Ret logs)).
Proof.
  unfold poll. destruct (latest_block_reply r) as [latest_block|e]; [|left; right; by eexists].
  case_bool_decide as Hw; [by left; left|].
  right. exists latest_block. split; [done|]. split; [lia|].
  destruct (get_logs_reply r _ _ _) as [logs|e]; [right|left]; by eexists.
Qed.

Lemma since_refl (l : Listener) : since l l = [].
Proof. unfold since. apply drop_all. Qed.

Lemma since_trans (l1 l2 l3 : Listener) (a b : list action) :
  journal l2 = journal l1 ++ a -> journal l3 = journal l2 ++ b ->
  since l1 l3 = since l1 l2 ++ since l2 l3.
Proof.
  intros H2 H3. rewrite (since_app _ _ _ H2), (since_app _ _ _ H3).
  apply since_app. by rewrite H3, H2, <- app_assoc.
Qed.

Lemma since_step_run (cfg : Config) (l : Listener) (t : turn) (ts : list turn) :
  since l (run cfg l (t :: ts)) =
  since l (step cfg l t) ++ since (step cfg l t) (run cfg (step cfg l t) ts).
Proof.
  destruct (step_progress cfg t l) as (_ & a & Ha & _).
  destruct (run_progress cfg ts (step cfg l t)) as (_ & b & Hb & _).
  by apply (since_trans _ _ _ a b).
Qed.

Lemma fetched_ranges_app (a b : list action) :
  fetched_ranges (a ++ b) = fetched_ranges a ++ fetched_ranges b.
Proof. apply omap_app. Qed.

Lemma fetched_ranges_Submitted (events : list ParsedLockEvent) :
  fetched_ranges (Submitted <$> events) = [].
Proof. induction events as [|e events IH]; [done|exact IH]. Qed.

Lemma contiguous_app (c : Z) (r1 r2 : list (Z * Z)) (c' : Z) :
  contiguous c r1 = Some c' -> contiguous c (r1 ++ r2) = contiguous c' r2.
Proof.
  revert c. induction r1 as [|[f t] r1 IH]; intros c; simpl.
  - by intros [= ->].
  - case_bool_decide; [apply IH|done].
Qed.

(** The ranges fetched in one turn in which the node answers. *)
Lemma step_contiguous (cfg : Config) (l : Listener) (t : turn) :
  answers t ->
  contiguous (last_processed_block l) (fetched_ranges (since l (step cfg l t))) =
  Some (last_processed_block (step cfg l t)).
Proof.
  destruct t as [r|]; [|intros _; simpl; unfold since; simpl; by rewrite drop_all].
  intros Hans. cbn [step].
  destruct (poll_inv cfg r l) as [[H|[e H]]|(latest & Hl & Hw & [(e & Hg & _)|(logs & Hg)])].
  - rewrite H. cbn [fst]. by rewrite since_refl.
  - rewrite H. cbn [fst]. by rewrite since_refl.
  - destruct (Hans _ _ (bridge_contract_address cfg) Hw) as [logs Hlogs]. congruence.
  - rewrite (poll_scanned_since cfg r l latest logs Hl Hw Hg).
    rewrite (poll_scanned cfg r l latest logs Hl Hw Hg). cbn [fst].
    rewrite !fetched_ranges_app, fetched_ranges_Submitted.
    match goal with |- context [_save_state ?o ?x] =>
      destruct (_save_state_spec o x) as (-> & _) end.
    cbn [set_cursor last_processed_block].
    destruct (save_reply r); simpl; rewrite bool_decide_eq_true_2; done.
Qed.

Lemma mock_turns_answer (b : Z) (ms : list mock_turn) :
  Forall answers (mock_turns b ms).
Proof.
  revert b. induction ms as [|[d o|] ms IH]; intros b; simpl; constructor; try done.
  intros f t a Hft. by apply get_logs_returns.
Qed.

(** X7. As long as the node answers its log fetches, the ranges fetched tile
    the blocks from the cursor the run began with to the cursor it ends
    with: each starts one block after the end of the one before, none is
    empty, no block is skipped and none fetched twice. *)
Theorem scanned_ranges_contiguous (cfg : Config) (l : Listener) (ts : list turn) :
  Forall answers ts ->
  contiguous (last_processed_block l)
             (fetched_ranges (since l (run cfg l ts))) =
  Some (last_processed_block (run cfg l ts)).
Proof.
  revert l. induction ts as [|t ts IH]; intros l Hans.
  - simpl. by rewrite since_refl.
  - apply Forall_cons in Hans as [Ht Hts].
    rewrite since_step_run, fetched_ranges_app.
    rewrite (contiguous_app _ _ _ _ (step_contiguous cfg l t Ht)).
    exact (IH (step cfg l t) Hts).
Qed.

Lemma scanned_ranges_contiguous_witness :
  let ms := [MockPoll sample_draws OpenFails; MockWork;
             MockPoll sample_draws SaveOk] in
  fetched_ranges (since fresh_listener
                    (run CONFIG fresh_listener (mock_turns 1000 ms))) =
    [(1001, 1006); (1007, 1018)] /\
  contiguous 1000 [(1001, 1006); (1007, 1018)] = Some 1018.
Proof.
  intros ms.
  assert (E : fetched_ranges (since fresh_listener
                (run CONFIG fresh_listener (mock_turns 1000 ms))) =
              [(1001, 1006); (1007, 1018)]) by (vm_compute; reflexivity).
  split; [exact E|]. rewrite <- E.
  refine (eq_trans (scanned_ranges_contiguous CONFIG fresh_listener
                      (mock_turns 1000 ms) _) _).
  - apply mock_turns_answer.
  - vm_compute. reflexivity.
Defined.

Lemma mock_block_grows (ms : list mock_turn) (b : Z) :
  Forall grows ms -> b <= mock_block b ms.
Proof.
  revert b. induction ms as [|[d o|] ms IH]; intros b H; simpl; [lia|..];
    apply Forall_cons in H as [Hm Hms].
  - specialize (IH (get_latest_block_number d b) Hms).
    unfold get_latest_block_number in *. simpl in Hm. lia.
  - by apply IH.
Qed.

(** A fetch recorded in one turn of the poll loop: it starts right after the
    cursor, is not empty, and ends at the latest block less the
    confirmation depth. *)
Lemma poll_fetch (cfg : Config) (r : Replies) (l : Listener) (f t : Z) (a : str) :
  Fetched f t a ∈ since l (poll cfg r l).1 ->
  f = last_processed_block l + 1 /\ f <= t /\
  exists latest_block,
    latest_block_reply r = Ret latest_block /\
    t = latest_block - confirmation_blocks cfg.
Proof.
  destruct (poll_inv cfg r l) as [[H|[e H]]|(latest & Hl & Hw & [(e & Hg & H)|(logs & Hg)])].
  - rewrite H. cbn [fst]. rewrite since_refl. by intros ?%elem_of_nil.
  - rewrite H. cbn [fst]. rewrite since_refl. by intros ?%elem_of_nil.
  - rewrite H. cbn [fst]. rewrite (since_app l _ [Fetched (last_processed_block l + 1)
      (latest - confirmation_blocks cfg) (bridge_contract_address cfg)]) by done.
    intros Hin%list_elem_of_singleton. injection Hin as -> -> _.
    repeat split; [done|]. by exists latest.
  - rewrite (poll_scanned_since cfg r l latest logs Hl Hw Hg).
    rewrite !elem_of_app. intros [Hin|[Hin|Hin]].
    + apply list_elem_of_singleton in Hin. injection Hin as -> -> _.
      repeat split; [done|]. by exists latest.
    + apply list_elem_of_fmap in Hin as (? & ? & _). discriminate.
    + apply elem_of_cons in Hin as [Hin|Hin]; [discriminate|].
      apply list_elem_of_singleton in Hin. by destruct (save_reply r).
Qed.

(** X8. In the wired program, while the chain does not shrink, every range
    fetched is non-empty and ends at least [confirmation_blocks] below the
    node's block number, at the time of the fetch and ever after. *)
Theorem fetches_only_confirmed (cfg : Config) (l : Listener) (current_block : Z)
    (ms : list mock_turn) (f t : Z) (a : str) :
  Forall grows ms ->
  Fetched f t a ∈ since l (run cfg l (mock_turns current_block ms)) ->
  last_processed_block l < f /\ f <= t /\
  t <= mock_block current_block ms - confirmation_blocks cfg.
Proof.
  revert l current_block. induction ms as [|m ms IH]; intros l b Hg Hin.
  - simpl in Hin. rewrite since_refl in Hin. by apply elem_of_nil in Hin.
  - apply Forall_cons in Hg as [Hm Hms]. destruct m as [d o|]; cbn [mock_turns] in Hin.
    + rewrite since_step_run in Hin. apply elem_of_app in Hin as [Hin|Hin].
      * apply poll_fetch in Hin as (-> & Hft & latest & Hl & ->).
        injection Hl as <-. cbn [mock_block].
        pose proof (mock_block_grows ms (get_latest_block_number d b) Hms). lia.
      * destruct (IH _ _ Hms Hin) as (Hc & Hft & Hconf).
        pose proof (proj1 (step_progress cfg
          (Poll {| latest_block_reply := Ret (get_latest_block_number d b);
                   get_logs_reply := get_logs d; save_reply := o |}) l)) as Hmono.
        cbn zeta in Hmono. cbn [mock_block]. lia.
    + rewrite since_step_run in Hin. apply elem_of_app in Hin as [Hin|Hin].
      * simpl in Hin. unfold since in Hin. simpl in Hin. rewrite drop_all in Hin.
        by apply elem_of_nil in Hin.
      * exact (IH _ _ Hms Hin).
Qed.

Lemma fetches_only_confirmed_witness :
  1000 < 1001 /\ 1001 <= 1006 /\
  1006 <= mock_block 1000 [MockPoll sample_draws SaveOk; MockWork]
          - confirmation_blocks CONFIG.
Proof.
  apply (fetches_only_confirmed CONFIG fresh_listener 1000
           [MockPoll sample_draws SaveOk; MockWork] 1001 1006
           (bridge_contract_address CONFIG)).
  - repeat constructor. simpl. lia.
  - vm_compute. left.
Defined.

Lemma step_persisted (cfg : Config) (t : turn) (l : Listener) :
  (forall c, persisted l = Some c -> c <= last_processed_block l) ->
  forall c, persisted (step cfg l t) = Some c ->
            c <= last_processed_block (step cfg l t).
Proof.
  intros Hinv c. destruct t as [r|]; [|exact (Hinv c)]. cbn [step].
  destruct (poll_inv cfg r l) as [[H|[e H]]|(latest & Hl & Hw & [(e & Hg & H)|(logs & Hg)])].
  - rewrite H. exact (Hinv c).
  - rewrite H. exact (Hinv c).
  - rewrite H. exact (Hinv c).
  - rewrite (poll_scanned cfg r l latest logs Hl Hw Hg). cbn [fst].
    match goal with |- context [_save_state ?o ?x] =>
      destruct (_save_state_spec o x) as (Hc & _ & _ & Hf) end.
    match goal with _ : context [foldl handle_log ?x logs] |- _ =>
      destruct (foldl_handle_log logs x) as (_ & Hf' & _ & _) end.
    cbn zeta in *. cbn [set_cursor note last_processed_block state_file] in *.
    unfold persisted. rewrite Hc, Hf.
    destruct (save_reply r); [by intros [= <-]| |done].
    rewrite Hf'. intros Hp. specialize (Hinv c Hp). lia.
Qed.

(** X9. From the construction on, a cursor found in the state file is never
    ahead of the cursor in memory. *)
Theorem persisted_behind_cursor (cfg : Config) (file : stored) (l : Listener)
    (ts : list turn) (c : Z) :
  new_listener cfg file = Ret (Some l) ->
  persisted (run cfg l ts) = Some c ->
  c <= last_processed_block (run cfg l ts).
Proof.
  intros Hnew.
  assert (Hinit : forall c, persisted l = Some c -> c <= last_processed_block l).
  { unfold new_listener in Hnew.
    destruct (_load_state cfg file) as [state|e] eqn:Eload; [|done].
    cbn [mbind exc_bind mret exc_ret] in Hnew.
    destruct (cursor_of state) as [n|] eqn:En; [|done].
    injection Hnew as <-. unfold persisted. cbn [state_file last_processed_block].
    intros c'. destruct file as [| |v]; [done..|].
    unfold _load_state in Eload.
    destruct (subscript v (lit "last_processed_block")); [|done].
    injection Eload as ->. rewrite En. intros [= <-]. lia. }
  clear Hnew. revert l Hinit c. induction ts as [|t ts IH]; intros l Hinit c.
  - exact (Hinit c).
  - apply (IH (step cfg l t)). by apply step_persisted.
Qed.

Lemma persisted_behind_cursor_witness :
  1006 <= last_processed_block
            (run CONFIG fresh_listener
               (mock_turns 1000 [MockPoll sample_draws SaveOk;
                                 MockPoll sample_draws OpenFails])).
Proof.
  apply (persisted_behind_cursor CONFIG Missing fresh_listener
           (mock_turns 1000 [MockPoll sample_draws SaveOk;
                             MockPoll sample_draws OpenFails]) 1006).
  - reflexivity.
  - vm_compute. reflexivity.
Defined.

(** ** Restarts *)

Lemma queue_run_submits (events : list ParsedLockEvent) (p : Processor) :
  taken (queue_run p (Submit <$> events)) = taken p.
Proof.
  revert p. induction events as [|e events IH]; intros p; [done|].
  change (queue_run p (Submit <$> e :: events))
    with (queue_run (submit_mint_transaction e p) (Submit <$> events)).
  rewrite IH. unfold submit_mint_transaction. by case_decide.
Qed.

(** X10. A restart after a shutdown whose save went through resumes at the
    cursor of the old process with an empty queue and an empty registry:
    what was still queued is not carried over, and since no later fetch
    starts at or below that cursor it is not fetched again either. *)
Theorem restart_after_shutdown (cfg : Config) (l : Listener) (ts : list turn) :
  exists l1,
    restart cfg (shutdown SaveOk l) = Ret (Some l1) /\
    last_processed_block l1 = last_processed_block l /\
    tx_processor l1 = new_processor /\
    forall f t a, Fetched f t a ∈ journal (run cfg l1 ts) ->
                  last_processed_block l < f.
Proof.
  eexists. split; [reflexivity|]. repeat split.
  intros f t a Hin.
  match goal with _ : context [run cfg ?l1 ts] |- _ =>
    destruct (run_progress cfg ts l1) as (_ & added & Hj & Hf) end.
  cbn zeta in *. rewrite Hj in Hin. simpl in Hin. exact (Hf f t a Hin).
Qed.

(** X11. When the save after a scan fails because the file cannot be opened
    and the process is then restarted on a state file that held the old
    cursor, the same turn fetches the same range again, and the decoded
    events are queued a second time although the registry of the old
    process held every one of their nonces. *)
Theorem unsaved_scan_repeats (cfg : Config) (r : Replies) (l : Listener)
    (latest_block : Z) (logs : list LogEntry) :
  let from_block := last_processed_block l + 1 in
  let to_block := latest_block - confirmation_blocks cfg in
  let events := omap parse_lock_event_from_log logs in
  let old := (poll cfg r l).1 in
  state_file l = Json (scan_state (last_processed_block l)) ->
  latest_block_reply r = Ret latest_block ->
  from_block <= to_block ->
  get_logs_reply r from_block to_block (bridge_contract_address cfg) = Ret logs ->
  save_reply r = OpenFails ->
  exists l1,
    restart cfg old = Ret (Some l1) /\
    last_processed_block l1 = last_processed_block l /\
    since l1 (poll cfg r l1).1 = since l old /\
    (forall e, e ∈ events -> nonce e ∈ _processed_nonces (tx_processor old)) /\
    _pending_transactions (tx_processor (poll cfg r l1).1) = accepted ∅ events.
Proof.
  cbn zeta. intros Hfile Hl Hw Hg Hs.
  assert (Hold : state_file (poll cfg r l).1 = state_file l /\
                 tx_processor (poll cfg r l).1 =
                 queue_run (tx_processor l)
                   (Submit <$> omap parse_lock_event_from_log logs)).
  { rewrite (poll_scanned cfg r l latest_block logs Hl Hw Hg). cbn [fst].
    match goal with |- context [_save_state ?o ?x] =>
      destruct (_save_state_spec o x) as (_ & Hp & _ & Hf) end.
    match goal with _ : context [foldl handle_log ?x logs] |- _ =>
      destruct (foldl_handle_log logs x) as (_ & Hf' & _ & Hp') end.
    cbn zeta in *. cbn [set_cursor note tx_processor state_file] in *.
    rewrite Hf, Hp, Hs. by split. }
  destruct Hold as [Hof Hop].
  set (l1 := {| last_processed_block := last_processed_block l;
                tx_processor := new_processor;
                state_file := Json (scan_state (last_processed_block l));
                journal := [] |}).
  assert (Hg1 : get_logs_reply r (last_processed_block l1 + 1)
                  (latest_block - confirmation_blocks cfg)
                  (bridge_contract_address cfg) = Ret logs) by exact Hg.
  exists l1. repeat split.
  - unfold restart, new_listener. rewrite Hof, Hfile. reflexivity.
  - rewrite (poll_scanned_since cfg r l1 latest_block logs Hl Hw Hg1).
    rewrite (poll_scanned_since cfg r l latest_block logs Hl Hw Hg).
    by rewrite Hs.
  - intros e He. rewrite Hop. apply queue_run_nonces. by rewrite submitted_Submit.
  - rewrite (poll_scanned cfg r l1 latest_block logs Hl Hw Hg1). cbn [fst].
    match goal with |- context [_save_state ?o ?x] =>
      destruct (_save_state_spec o x) as (_ & Hp & _ & _) end.
    match goal with _ : context [foldl handle_log ?x logs] |- _ =>
      destruct (foldl_handle_log logs x) as (_ & _ & _ & Hp') end.
    cbn zeta in *. cbn [set_cursor note tx_processor] in *.
    rewrite Hp, Hp'.
    pose proof (queue_run_delivery
      (Submit <$> omap parse_lock_event_from_log logs) new_processor) as Hd.
    unfold delivery in Hd. rewrite queue_run_submits, submitted_Submit in Hd.
    exact Hd.
Qed.

Lemma unsaved_scan_repeats_witness :
  let r := {| latest_block_reply := Ret 1012;
              get_logs_reply := fun _ _ _ => Ret [lock_event_log sample_event];
              save_reply := OpenFails |} in
  let l := with_file (Json (scan_state 1000)) fresh_listener in
  exists l1,
    restart CONFIG (poll CONFIG r l).1 = Ret (Some l1) /\
    _pending_transactions (tx_processor (poll CONFIG r l1).1) = [sample_event].
Proof.
  intros r l.
  destruct (unsaved_scan_repeats CONFIG r l 1012 [lock_event_log sample_event])
    as (l1 & H1 & _ & _ & _ & H5).
  - reflexivity.
  - reflexivity.
  - vm_compute. discriminate.
  - reflexivity.
  - reflexivity.
  - exists l1. split; [exact H1|]. rewrite H5. vm_compute. reflexivity.
Defined.

(** X12. When the save after a scan fails while writing, the file is left
    truncated, and a restart begins at the configured start block with an
    empty queue: with a start block at or below the old cursor the new
    process is behind the block the old one had reached. *)
Theorem restart_after_failed_write (cfg : Config) (r : Replies) (l : Listener)
    (latest_block : Z) (logs : list LogEntry) :
  let from_block := last_processed_block l + 1 in
  let to_block := latest_block - confirmation_blocks cfg in
  let old := (poll cfg r l).1 in
  latest_block_reply r = Ret latest_block ->
  from_block <= to_block ->
  get_logs_reply r from_block to_block (bridge_contract_address cfg) = Ret logs ->
  save_reply r = WriteFails ->
  exists l1,
    restart cfg old = Ret (Some l1) /\
    last_processed_block l1 = start_block cfg /\
    tx_processor l1 = new_processor /\
    (start_block cfg <= last_processed_block l ->
     last_processed_block l1 < last_processed_block old).
Proof.
  cbn zeta. intros Hl Hw Hg Hs.
  rewrite (poll_scanned cfg r l latest_block logs Hl Hw Hg). cbn [fst].
  match goal with |- context [_save_state ?o ?x] =>
    destruct (_save_state_spec o x) as (Hc & _ & _ & Hf) end.
  cbn zeta in *. cbn [set_cursor last_processed_block] in *.
  unfold restart. rewrite Hf, Hc, Hs.
  eexists. split; [reflexivity|]. repeat split. simpl. lia.
Qed.

Lemma restart_after_failed_write_witness :
  let r := {| latest_block_reply := Ret 1012;
              get_logs_reply := fun _ _ _ => Ret [];
              save_reply := WriteFails |} in
  exists l1,
    restart CONFIG (poll CONFIG r fresh_listener).1 = Ret (Some l1) /\
    last_processed_block l1 = 1000.
Proof.
  intros r.
  destruct (restart_after_failed_write CONFIG r fresh_listener 1012 [])
    as (l1 & H1 & H2 & _).
  - reflexivity.
  - vm_compute. discriminate.
  - reflexivity.
  - reflexivity.
  - exists l1. split; [exact H1|exact H2].
Defined.

(** ** Failed fetches *)

(** A turn of the poll loop does not look at the journal. *)
Lemma poll_same_state (cfg : Config) (r : Replies) (l1 l2 : Listener) :
  same_state l1 l2 ->
  same_state (poll cfg r l1).1 (poll cfg r l2).1 /\
  (poll cfg r l1).2 = (poll cfg r l2).2 /\
  since l1 (poll cfg r l1).1 = since l2 (poll cfg r l2).1.
Proof.
  intros (Hc & Hp & Hf).
  destruct (poll_inv cfg r l1)
    as [[H|[e H]]|(latest & Hl & Hw & [(e & Hg & H)|(logs & Hg)])].
  - assert (H2 : poll cfg r l2 = (l2, NoWork)).
    { revert H. unfold poll. rewrite Hc.
      destruct (latest_block_reply r); [|done]. case_bool_decide; [done|].
      by destruct (get_logs_reply r _ _ _). }
    rewrite H, H2. cbn [fst snd]. rewrite !since_refl. by repeat split.
  - assert (H2 : poll cfg r l2 = (l2, Failed e)).
    { revert H. unfold poll. rewrite Hc.
      destruct (latest_block_reply r); [|by intros [= ->]]. case_bool_decide; [done|].
      destruct (get_logs_reply r _ _ _); [done|].
      intros [= Hn]. apply (f_equal journal) in Hn. simpl in Hn.
      apply (f_equal length) in Hn. rewrite length_app in Hn. simpl in Hn. lia. }
    rewrite H, H2. cbn [fst snd]. rewrite !since_refl. by repeat split.
  - assert (H2 : poll cfg r l2 =
        (note (Fetched (last_processed_block l2 + 1)
                 (latest - confirmation_blocks cfg)
                 (bridge_contract_address cfg)) l2, Failed e)).
    { unfold poll. rewrite Hl, <- Hc, bool_decide_eq_false_2 by lia. by rewrite Hg. }
    rewrite H, H2. cbn [fst snd]. rewrite <- Hc. repeat split; try done.
    by rewrite !(since_app _ _ [Fetched (last_processed_block l1 + 1)
      (latest - confirmation_blocks cfg) (bridge_contract_address cfg)]).
  - assert (Hw2 : last_processed_block l2 + 1 <= latest - confirmation_blocks cfg)
      by (rewrite <- Hc; exact Hw).
    assert (Hg2 : get_logs_reply r (last_processed_block l2 + 1)
                    (latest - confirmation_blocks cfg)
                    (bridge_contract_address cfg) = Ret logs)
      by (rewrite <- Hc; exact Hg).
    rewrite (poll_scanned_since cfg r l1 latest logs Hl Hw Hg).
    rewrite (poll_scanned_since cfg r l2 latest logs Hl Hw2 Hg2).
    rewrite (poll_scanned cfg r l1 latest logs Hl Hw Hg).
    rewrite (poll_scanned cfg r l2 latest logs Hl Hw2 Hg2). cbn [fst snd].
    rewrite <- Hc. repeat split; try done.
    + by destruct (save_reply r).
    + destruct (foldl_handle_log logs
        (note (Fetched (last_processed_block l1 + 1)
                 (latest - confirmation_blocks cfg)
                 (bridge_contract_address cfg)) l1)) as (_ & _ & _ & Hp1).
      destruct (foldl_handle_log logs
        (note (Fetched (last_processed_block l1 + 1)
                 (latest - confirmation_blocks cfg)
                 (bridge_contract_address cfg)) l2)) as (_ & _ & _ & Hp2).
      cbn zeta in *. cbn [note tx_processor] in *.
      destruct (save_reply r); cbn [_save_state note with_file set_cursor tx_processor];
        by rewrite Hp1, Hp2, Hp.
    + destruct (foldl_handle_log logs
        (note (Fetched (last_processed_block l1 + 1)
                 (latest - confirmation_blocks cfg)
                 (bridge_contract_address cfg)) l1)) as (_ & Hf1 & _ & _).
      destruct (foldl_handle_log logs
        (note (Fetched (last_processed_block l1 + 1)
                 (latest - confirmation_blocks cfg)
                 (bridge_contract_address cfg)) l2)) as (_ & Hf2 & _ & _).
      cbn zeta in *. cbn [note state_file] in *.
      destruct (save_reply r); cbn [_save_state note with_file set_cursor state_file
        last_processed_block]; [done| |done].
      by rewrite Hf1, Hf2, Hf.
Qed.

(** X13. A turn whose log fetch raises ends in the error handler and
    changes nothing but the journal: cursor, queue, registry and state file
    stay, so that the next turn, whatever the node then answers, goes
    exactly as it would have gone without the failed one and fetches from
    the same block. *)
Theorem failed_fetch_retried (cfg : Config) (r r' : Replies) (l : Listener)
    (latest_block : Z) (e : exn) :
  let from_block := last_processed_block l + 1 in
  let to_block := latest_block - confirmation_blocks cfg in
  let l' := (poll cfg r l).1 in
  latest_block_reply r = Ret latest_block ->
  from_block <= to_block ->
  get_logs_reply r from_block to_block (bridge_contract_address cfg) = Raise e ->
  (poll cfg r l).2 = Failed e /\
  same_state l l' /\
  since l l' = [Fetched from_block to_block (bridge_contract_address cfg)] /\
  same_state (poll cfg r' l).1 (poll cfg r' l').1 /\
  (poll cfg r' l).2 = (poll cfg r' l').2 /\
  since l (poll cfg r' l).1 = since l' (poll cfg r' l').1.
Proof.
  cbn zeta. intros Hl Hw Hg.
  assert (H : poll cfg r l =
    (note (Fetched (last_processed_block l + 1)
             (latest_block - confirmation_blocks cfg)
             (bridge_contract_address cfg)) l, Failed e)).
  { unfold poll. rewrite Hl, bool_decide_eq_false_2 by lia. by rewrite Hg. }
  rewrite H. cbn [fst snd].
  assert (Hsame : same_state l
    (note (Fetched (last_processed_block l + 1)
             (latest_block - confirmation_blocks cfg)
             (bridge_contract_address cfg)) l)) by done.
  destruct (poll_same_state cfg r' _ _ Hsame) as (H1 & H2 & H3).
  split; [done|]. split; [exact Hsame|]. split; [by apply since_app|].
  split; [exact H1|]. split; [exact H2|exact H3].
Qed.

Lemma failed_fetch_retried_witness :
  let r := {| latest_block_reply := Ret 1012;
              get_logs_reply := fun _ _ _ => Raise OSError;
              save_reply := SaveOk |} in
  (poll CONFIG r fresh_listener).2 = Failed OSError /\
  since fresh_listener (poll CONFIG r fresh_listener).1 =
    [Fetched 1001 1006 (bridge_contract_address CONFIG)].
Proof.
  intros r.
  destruct (failed_fetch_retried CONFIG r r fresh_listener 1012 OSError)
    as (H1 & _ & H3 & _).
  - reflexivity.
  - vm_compute. discriminate.
  - reflexivity.
  - split; [exact H1|exact H3].
Defined.

(** ** The configuration reader *)

Lemma split_on_app (sep : ascii) (k r : str) :
  sep ∉ k -> split_on sep (k ++ sep :: r) = k :: split_on sep r.
Proof.
  induction k as [|c k IH]; intros Hk.
  - simpl. unfold is_char. by rewrite bool_decide_eq_true_2.
  - apply not_elem_of_cons in Hk as [Hc Hk]. cbn [app split_on].
    unfold is_char. rewrite bool_decide_eq_false_2 by congruence.
    by rewrite (IH Hk).
Qed.

Lemma split_on_none (sep : ascii) (k : str) : sep ∉ k -> split_on sep k = [k].
Proof.
  induction k as [|c k IH]; intros Hk; [done|].
  apply not_elem_of_cons in Hk as [Hc Hk]. cbn [split_on].
  unfold is_char. rewrite bool_decide_eq_false_2 by congruence.
  by rewrite (IH Hk).
Qed.

Lemma startswith_app (key rest : str) : startswith (key ++ rest) key = true.
Proof. unfold startswith. apply bool_decide_eq_true_2, take_app_length. Qed.

Lemma scan_lines_skip (key : str) (pre rest : list str) :
  Forall (fun l => startswith l key = false) pre ->
  scan_lines key (pre ++ rest) = scan_lines key rest.
Proof.
  induction pre as [|l pre IH]; intros H; [done|].
  apply Forall_cons in H as [Hl Hpre]. simpl. rewrite Hl. by apply IH.
Qed.

(** X14. The reader returns [None] exactly when no line of the file begins
    with the key.  Otherwise the first line that begins with it decides
    alone, whatever follows the key on that line and whatever comes later in
    the file: [IndexError] when the line has no [=], else the text between
    its first and its second [=], stripped. *)
Theorem config_first_match (lines : list str) (key : str) :
  (get_config_value_7595 (Some lines) key = inr None <->
   Forall (fun l => startswith l key = false) lines) /\
  (forall pre line post,
     lines = pre ++ line :: post ->
     Forall (fun l => startswith l key = false) pre ->
     startswith line key = true ->
     get_config_value_7595 (Some lines) key =
       match split_on "=" line !! 1%nat with
       | Some value => inr (Some (strip value))
       | None => inl IndexError
       end).
Proof.
  cbn [get_config_value_7595]. split.
  - induction lines as [|l lines IH]; [by split; [constructor|]|].
    cbn [scan_lines]. destruct (startswith l key) eqn:E.
    + split.
      * by destruct (split_on "=" l !! 1%nat).
      * intros H. apply Forall_cons in H as [H _]. congruence.
    + rewrite IH. split; [by constructor|]. by intros [_ H]%Forall_cons.
  - intros pre line post -> Hpre Hline.
    rewrite scan_lines_skip by done. cbn [scan_lines]. by rewrite Hline.
Qed.

(** X15. A line written as the key, [=] and a value is read back, stripped,
    when neither holds a [=] and no earlier line begins with the key; a
    second [=] on the line cuts the value there. *)
Theorem config_value_found (pre post : list str) (key value tail : str) :
  "="%char ∉ key -> "="%char ∉ value ->
  tail = [] \/ (exists w, tail = "="%char :: w) ->
  Forall (fun l => startswith l key = false) pre ->
  get_config_value_7595
    (Some (pre ++ (key ++ "="%char :: value ++ tail) :: post)) key =
  inr (Some (strip value)).
Proof.
  intros Hk Hv Htail Hpre. cbn [get_config_value_7595].
  rewrite scan_lines_skip by done. cbn [scan_lines].
  rewrite startswith_app, split_on_app by done.
  destruct Htail as [->|[w ->]].
  - rewrite app_nil_r, split_on_none by done. reflexivity.
  - rewrite split_on_app by done. reflexivity.
Qed.

Lemma config_value_found_witness :
  get_config_value_7595
    (Some ([lit "# chain"] ++
           (lit "name" ++ "="%char :: (lit " Goerli " ++ [ch 10]) ++ []) ::
           [lit "name=other"])) (lit "name")
  = inr (Some (lit "Goerli")).
Proof.
  refine (eq_trans (config_value_found [lit "# chain"] [lit "name=other"]
            (lit "name") (lit " Goerli " ++ [ch 10]) [] _ _ _ _) _).
  - apply (bool_decide_unpack _). vm_compute. exact I.
  - apply (bool_decide_unpack _). vm_compute. exact I.
  - by left.
  - repeat constructor.
  - reflexivity.
Defined.

Lemma lstrip_spec (s : str) :
  exists w, s = w ++ lstrip s /\ Forall (fun c => isspace c = true) w /\
            (forall c r, lstrip s = c :: r -> isspace c = false).
Proof.
  induction s as [|c s (w & E & Hw & Hh)].
  - exists []. by repeat split.
  - cbn [lstrip]. destruct (isspace c) eqn:Ec.
    + exists (c :: w). repeat split; [by rewrite E at 1|by constructor|done].
    + exists []. repeat split; [constructor|]. by intros ? ? [= <- _].
Qed.

(** X16. A value the reader returns neither begins nor ends with white
    space; the line end of the file in particular is gone. *)
Theorem config_value_stripped (file : option (list str)) (key value : str) :
  get_config_value_7595 file key = inr (Some value) ->
  (forall c r, value = c :: r -> isspace c = false) /\
  (forall c r, value = r ++ [c] -> isspace c = false).
Proof.
  assert (Hstrip : forall s,
    (forall c r, strip s = c :: r -> isspace c = false) /\
    (forall c r, strip s = r ++ [c] -> isspace c = false)).
  { intros s. unfold strip, rstrip.
    destruct (lstrip_spec s) as (w1 & E1 & _ & H1).
    destruct (lstrip_spec (reverse (lstrip s))) as (w2 & E2 & Hw2 & H2).
    assert (E3 : lstrip s = reverse (lstrip (reverse (lstrip s))) ++ reverse w2).
    { rewrite <- reverse_app, <- E2. by rewrite reverse_involutive. }
    split.
    - intros c r Hc. apply (H1 c (r ++ reverse w2)). by rewrite E3, Hc.
    - intros c r Hc. apply (H2 c (reverse r)).
      apply (f_equal reverse) in Hc.
      by rewrite reverse_involutive, reverse_app in Hc. }
  destruct file as [lines|]; [|done]. cbn [get_config_value_7595].
  induction lines as [|l lines IH]; [done|]. cbn [scan_lines].
  destruct (startswith l key); [|exact IH].
  destruct (split_on "=" l !! 1%nat) as [v|]; [|done].
  intros [= <-]. apply Hstrip.
Qed.

Lemma config_value_stripped_witness :
  get_config_value_7595 (Some [lit "name = Goerli " ++ [ch 10]]) (lit "name") =
    inr (Some (lit "Goerli")) /\
  isspace "i" = false.
Proof.
  split; [reflexivity|].
  refine (proj2 (config_value_stripped
    (Some [lit "name = Goerli " ++ [ch 10]]) (lit "name") (lit "Goerli") _)
    "i"%char (lit "Goerl") _); reflexivity.
Defined.

(** ** More on loading the state *)



(** ** The queue under the poll loop *)

Lemma queue_run_coherent (ops : list queue_op) (p : Processor) :
  coherent p -> coherent (queue_run p ops).
Proof.
  intros [Hnd Hreg]. unfold coherent.
  rewrite queue_run_delivery, queue_run_registry, fmap_app.
  destruct (accepted_fresh_nonces (submitted ops) (_processed_nonces p))
    as (Hnd' & Hfresh & Heq).
  split.
  - apply NoDup_app. split; [done|]. split; [|done].
    intros n Hn Hn'. apply list_elem_of_fmap in Hn' as (e & -> & He).
    apply (Hfresh e He). rewrite <- Hreg. by apply elem_of_list_to_set.
  - rewrite list_to_set_app_L, Hreg. exact Heq.
Qed.

(** The processor after a turn is the processor before it after some
    operations of the two tasks. *)
Lemma step_queue_run (cfg : Config) (l : Listener) (t : turn) :
  exists ops, tx_processor (step cfg l t) = queue_run (tx_processor l) ops.
Proof.
  destruct t as [r|]; [|by exists [Take]]. cbn [step].
  destruct (poll_inv cfg r l) as [[H|[e H]]|(latest & Hl & Hw & [(e & Hg & H)|(logs & Hg)])];
    try (rewrite H; by exists []).
  rewrite (poll_scanned cfg r l latest logs Hl Hw Hg). cbn [fst].
  match goal with |- context [_save_state ?o ?x] =>
    destruct (_save_state_spec o x) as (_ & Hp & _ & _) end.
  match goal with _ : context [foldl handle_log ?x logs] |- _ =>
    destruct (foldl_handle_log logs x) as (_ & _ & _ & Hp') end.
  cbn zeta in *. cbn [set_cursor note tx_processor] in *.
  rewrite Hp, Hp'. by eexists.
Qed.

(** X18. Within one process, however the node repeats events from turn to
    turn, no nonce is handed to the worker twice: after any run of a newly
    built listener the events taken or still queued carry pairwise distinct
    nonces, and the registry is the set of these nonces. *)
Theorem run_never_repeats_nonce (cfg : Config) (file : stored) (l : Listener)
    (ts : list turn) :
  new_listener cfg file = Ret (Some l) ->
  let p := tx_processor (run cfg l ts) in
  NoDup (nonce <$> delivery p) /\
  list_to_set (nonce <$> delivery p) = _processed_nonces p.
Proof.
  intros Hnew. cbn zeta.
  assert (Hinit : coherent (tx_processor l)).
  { unfold new_listener in Hnew. destruct (_load_state cfg file); [|done].
    cbn [mbind exc_bind mret exc_ret] in Hnew.
    destruct (cursor_of _); [|done]. injection Hnew as <-.
    split; [constructor|done]. }
  clear Hnew. revert l Hinit. induction ts as [|t ts IH]; intros l Hinit.
  - exact Hinit.
  - change (run cfg l (t :: ts)) with (run cfg (step cfg l t) ts).
    apply IH. destruct (step_queue_run cfg l t) as [ops ->].
    by apply queue_run_coherent.
Qed.

Lemma run_never_repeats_nonce_witness :
  let r := {| latest_block_reply := Ret 1012;
              get_logs_reply := fun _ _ _ =>
                Ret [lock_event_log sample_event; lock_event_log sample_event];
              save_reply := SaveOk |} in
  NoDup (nonce <$> delivery (tx_processor
           (run CONFIG fresh_listener [Poll r; Work; Poll r]))).
Proof.
  intros r.
  refine (proj1 (run_never_repeats_nonce CONFIG Missing fresh_listener
                   [Poll r; Work; Poll r] _)).
  reflexivity.
Defined.

(** ** The two tasks side by side *)

Lemma take_submit_commute (e : ParsedLockEvent) (p : Processor) :
  _pending_transactions p <> [] ->
  process_queue_turn (submit_mint_transaction e p) =
  submit_mint_transaction e (process_queue_turn p).
Proof.
  intros Hne. unfold submit_mint_transaction, process_queue_turn.
  destruct p as [[|x q] seen tk]; [done|]. simpl.
  by destruct (decide (nonce e ∈ seen)).
Qed.

Lemma submit_pending (e : ParsedLockEvent) (p : Processor) :
  _pending_transactions p <> [] ->
  _pending_transactions (submit_mint_transaction e p) <> [].
Proof.
  intros Hne. unfold submit_mint_transaction. case_decide; [done|]. simpl.
  by destruct (_pending_transactions p).
Qed.

Lemma take_submits_commute (events : list ParsedLockEvent) (p : Processor) :
  _pending_transactions p <> [] ->
  process_queue_turn (queue_run p (Submit <$> events)) =
  queue_run (process_queue_turn p) (Submit <$> events).
Proof.
  revert p. induction events as [|e events IH]; intros p Hne; [done|].
  change (queue_run p (Submit <$> e :: events))
    with (queue_run (submit_mint_transaction e p) (Submit <$> events)).
  change (queue_run (process_queue_turn p) (Submit <$> e :: events))
    with (queue_run (submit_mint_transaction e (process_queue_turn p))
            (Submit <$> events)).
  rewrite IH by (by apply submit_pending). by rewrite take_submit_commute.
Qed.

Lemma listener_eq (l1 l2 : Listener) :
  last_processed_block l1 = last_processed_block l2 ->
  tx_processor l1 = tx_processor l2 ->
  state_file l1 = state_file l2 ->
  journal l1 = journal l2 ->
  l1 = l2.
Proof. destruct l1, l2. simpl. by intros -> -> -> ->. Qed.

(** The four fields of the listener after a turn that scans. *)
Lemma poll_scanned_fields (cfg : Config) (r : Replies) (l : Listener)
    (latest_block : Z) (logs : list LogEntry) :
  let from_block := last_processed_block l + 1 in
  let to_block := latest_block - confirmation_blocks cfg in
  let l' := (poll cfg r l).1 in
  latest_block_reply r = Ret latest_block ->
  from_block <= to_block ->
  get_logs_reply r from_block to_block (bridge_contract_address cfg) = Ret logs ->
  last_processed_block l' = to_block /\
  tx_processor l' =
    queue_run (tx_processor l) (Submit <$> omap parse_lock_event_from_log logs) /\
  state_file l' = match save_reply r with
                  | SaveOk => Json (scan_state to_block)
                  | OpenFails => state_file l
                  | WriteFails => NotJson
                  end /\
  journal l' = journal l ++
    [Fetched from_block to_block (bridge_contract_address cfg)] ++
    (Submitted <$> omap parse_lock_event_from_log logs) ++
    [CursorSet to_block; save_action (save_reply r) to_block].
Proof.
  cbn zeta. intros Hl Hw Hg.
  rewrite (poll_scanned cfg r l latest_block logs Hl Hw Hg). cbn [fst].
  match goal with |- context [_save_state ?o ?x] =>
    destruct (_save_state_spec o x) as (Hc & Hp & Hj & Hf) end.
  match goal with _ : context [foldl handle_log ?x logs] |- _ =>
    destruct (foldl_handle_log logs x) as (_ & Hf' & Hj' & Hp') end.
  cbn zeta in *.
  cbn [set_cursor note last_processed_block journal tx_processor state_file] in *.
  rewrite Hc, Hp, Hf, Hj, Hp', Hj'. repeat split.
  - destruct (save_reply r); [done|exact Hf'|done].
  - by rewrite <- !app_assoc.
Qed.

(** X19. While the queue is not empty, a turn of the worker and a turn of
    the poll loop can be swapped without any difference in the resulting
    listener: the worker takes from the head, the poll loop appends at the
    tail, and neither looks at what the other changes. *)
Theorem worker_and_poll_commute (cfg : Config) (r : Replies) (l : Listener) :
  _pending_transactions (tx_processor l) <> [] ->
  step cfg (step cfg l Work) (Poll r) = step cfg (step cfg l (Poll r)) Work.
Proof.
  intros Hne. cbn [step].
  destruct (poll_inv cfg r l)
    as [[H|[e H]]|(latest & Hl & Hw & [(e & Hg & H)|(logs & Hg)])].
  - assert (H2 : poll cfg r (with_processor process_queue_turn l) =
                 (with_processor process_queue_turn l, NoWork)).
    { revert H. unfold poll. cbn [with_processor last_processed_block].
      destruct (latest_block_reply r); [|done]. case_bool_decide; [done|].
      by destruct (get_logs_reply r _ _ _). }
    by rewrite H, H2.
  - assert (H2 : poll cfg r (with_processor process_queue_turn l) =
                 (with_processor process_queue_turn l, Failed e)).
    { revert H. unfold poll. cbn [with_processor last_processed_block].
      destruct (latest_block_reply r); [|by intros [= ->]]. case_bool_decide; [done|].
      destruct (get_logs_reply r _ _ _); [done|].
      intros [= Hn]. apply (f_equal journal) in Hn. simpl in Hn.
      apply (f_equal length) in Hn. rewrite length_app in Hn. simpl in Hn. lia. }
    by rewrite H, H2.
  - rewrite H. unfold poll. cbn [with_processor last_processed_block].
    rewrite Hl, bool_decide_eq_false_2 by lia. by rewrite Hg.
  - destruct (poll_scanned_fields cfg r l latest logs Hl Hw Hg) as (A1 & A2 & A3 & A4).
    destruct (poll_scanned_fields cfg r (with_processor process_queue_turn l)
                latest logs Hl Hw Hg) as (B1 & B2 & B3 & B4).
    cbn zeta in *.
    cbn [with_processor last_processed_block tx_processor state_file journal] in *.
    apply listener_eq;
      cbn [with_processor last_processed_block tx_processor state_file journal].
    + by rewrite A1, B1.
    + rewrite A2, B2. symmetry. by apply take_submits_commute.
    + by rewrite A3, B3.
    + by rewrite A4, B4.
Qed.

Lemma worker_and_poll_commute_witness :
  let r := {| latest_block_reply := Ret 1012;
              get_logs_reply := fun _ _ _ => Ret [lock_event_log (event_with_nonce 8)];
              save_reply := SaveOk |} in
  let l := with_processor (submit_mint_transaction sample_event) fresh_listener in
  _pending_transactions (tx_processor (step CONFIG (step CONFIG l Work) (Poll r)))
  = [event_with_nonce 8].
Proof.
  intros r l.
  rewrite (worker_and_poll_commute CONFIG r l); [|discriminate].
  vm_compute. reflexivity.
Defined.
